(** * ETL: memory strategies, vector proxy swap, FIFO iterators, sorted maps

    A shallow embedding of the parts of the ETL container library that the
    specification talks about:

      - [include/etl/base/MemStrategies.h]  [StaticSized], [DynamicSized]
      - [Base/AVectorBase.cpp]              [AVectorBase::swap]
      - [Base/AFifoIterator.h]              [AFifoIterator], [FifoIterator]
      - [Map.h]                             [Map::find], [erase], [insert], ...

    [Base/Sorted.h], [Base/FifoIndexing.h], [PoolAllocator.h] and [List.h]
    are not among the sources.  What the code above calls from them is a
    parameter of the definitions that call it; the sorted engine, the pool
    allocator and the pooled list are modelled from the specification, and
    every such definition says so.

    Unsigned machine integers are integers of [Z] reduced modulo [2 ^ bits];
    addresses are integers counted in elements, [0] being [nullptr]. *)

From Stdlib Require Import ZArith List Lia Bool.
From stdpp Require Import base option list sorting gmap.
Import ListNotations.

Local Open Scope Z_scope.

(** ** [size_type]: an unsigned integer of [bits] bits *)

Module SizeType.

Definition modulus (bits : Z) : Z := 2 ^ bits.

Definition wrap (bits x : Z) : Z := x mod modulus bits.

(** [std::numeric_limits<size_type>::max()] *)
Definition max_value (bits : Z) : Z := modulus bits - 1.

Definition add (bits a b : Z) : Z := wrap bits (a + b).
Definition sub (bits a b : Z) : Z := wrap bits (a - b).
Definition mul (bits a b : Z) : Z := wrap bits (a * b).

(** [~a] on [bits] bits *)
Definition lnot (bits a : Z) : Z := wrap bits (Z.lnot a).

End SizeType.

(** ** Contract violations, as the violation hook receives them *)

Inductive ContractViolation : Type := CapacityExceeded | PoolExhausted.

(** ** The storage proxy of a contiguous container *)

Module Proxy.

Record t : Type := Build { data : Z; capacity : Z; size : Z }.

Definition setData (p : t) (d : Z) : t :=
  {| data := d; capacity := capacity p; size := size p |}.

Definition setCapacity (p : t) (c : Z) : t :=
  {| data := data p; capacity := c; size := size p |}.

Definition setSize (p : t) (s : Z) : t :=
  {| data := data p; capacity := capacity p; size := s |}.

End Proxy.

(** ** Memory strategies ([MemStrategies.h]) *)

Module MemStrategies.

(** What the strategies do to elements goes through [C::ops()] and is
    recorded, in order, in the container's log; [Violation] is a call of the
    contract-violation hook.  What they do to memory goes through the
    allocator and shows in its state. *)
Inductive Event (T : Type) : Type :=
| PlaceDefaultTo (pos : Z)
| PlaceValueTo (pos : Z) (ref : T)
| Destruct (first last : Z)
| MoveWithPlacement (src dst num : Z)
| Violation (v : ContractViolation).

Arguments PlaceDefaultTo {T} pos.
Arguments PlaceValueTo {T} pos ref.
Arguments Destruct {T} first last.
Arguments MoveWithPlacement {T} src dst num.
Arguments Violation {T} v.

(** The container [C& cont] as the strategies see it. *)
Record Cont (T : Type) : Type :=
  MkCont { proxy : Proxy.t; log : list (Event T) }.

Arguments MkCont {T} proxy log.
Arguments proxy {T} _.
Arguments log {T} _.

(** The two inserters [resize] passes to [resizeWithInserter]. *)
Inductive Inserter (T : Type) : Type :=
| placeDefault
| placeValue (ref : T).

Arguments placeDefault {T}.
Arguments placeValue {T} ref.

Section Container.
Context {T : Type}.

Definition data (c : Cont T) : Z := Proxy.data (proxy c).
Definition capacity (c : Cont T) : Z := Proxy.capacity (proxy c).
Definition size (c : Cont T) : Z := Proxy.size (proxy c).

(** [cont.end()] is [cont.data() + cont.size()] *)
Definition cend (c : Cont T) : Z := data c + size c.

Definition setData (c : Cont T) (d : Z) : Cont T :=
  MkCont (Proxy.setData (proxy c) d) (log c).
Definition setCapacity (c : Cont T) (n : Z) : Cont T :=
  MkCont (Proxy.setCapacity (proxy c) n) (log c).
Definition setSize (c : Cont T) (n : Z) : Cont T :=
  MkCont (Proxy.setSize (proxy c) n) (log c).

Definition logEvent (c : Cont T) (e : Event T) : Cont T :=
  MkCont (proxy c) (log c ++ [e]).

Definition inserter (ins : Inserter T) (pos : Z) : Event T :=
  match ins with
  | placeDefault => PlaceDefaultTo pos
  | placeValue ref => PlaceValueTo pos ref
  end.

(** [for (iterator it = first; it < newEnd; ++it) { inserter(it); }],
  the loop counter made explicit. *)
Fixpoint insertLoop (n : nat) (ins : Inserter T) (it newEnd : Z)
    (c : Cont T) : Cont T :=
  match n with
  | O => c
  | S n' =>
      if it <? newEnd
      then insertLoop n' ins (it + 1) newEnd (logEvent c (inserter ins it))
      else c
  end.

Definition insertRange (ins : Inserter T) (first newEnd : Z) (c : Cont T)
    : Cont T :=
  insertLoop (Z.to_nat (newEnd - first)) ins first newEnd c.

(** The events that construct an element in place, and how many of them a
  log holds. *)
Definition isPlacement (e : Event T) : bool :=
  match e with
  | PlaceDefaultTo _ | PlaceValueTo _ _ => true
  | _ => false
  end.

Definition placements (l : list (Event T)) : nat :=
  length (filter (fun e => isPlacement e = true) l).

End Container.

(** The calls of the [AMemStrategy<C>] interface that change a container,
    as values: what a container asks of its strategy. *)
Inductive Request (T : Type) : Type :=
| ReserveExactly (length : Z)
| Reserve (length : Z)
| ShrinkToFit
| Resize (length : Z)
| ResizeWith (length : Z) (ref : T).

Arguments ReserveExactly {T} length.
Arguments Reserve {T} length.
Arguments ShrinkToFit {T}.
Arguments Resize {T} length.
Arguments ResizeWith {T} length ref.

(** The lengths a run of requests asks for. *)
Definition requestedLengths {T : Type} (reqs : list (Request T)) : list Z :=
  reqs ≫= fun req =>
    match req with
    | ReserveExactly length | Reserve length | Resize length
    | ResizeWith length _ => [length]
    | ShrinkToFit => []
    end.

(** *** [StaticSized]: fixed, externally allocated storage *)

Module StaticSized.

Record t : Type := Build { data : Z; capacity : Z }.

Section Ops.
Context {T : Type}.

Definition getMaxCapacity (s : t) : Z := capacity s.

Definition setupData (s : t) (cont : Cont T) (length : Z) : Cont T :=
  if length <=? capacity s
  then setCapacity (setData cont (data s)) (capacity s)
  else (* TODO throw; *) cont.

Definition reserveExactly (s : t) (cont : Cont T) (length : Z) : Cont T :=
  setupData s cont length.

Definition reserve (s : t) (cont : Cont T) (length : Z) : Cont T :=
  setupData s cont length.

Definition shrinkToFit (s : t) (cont : Cont T) : Cont T :=
  setupData s cont (capacity s).

Definition resizeWithInserter (s : t) (cont : Cont T) (length : Z)
    (ins : Inserter T) : Cont T :=
  if length <=? capacity s then
    let cont := setupData s cont length in
    let cont :=
      if length >? size cont then
        let newEnd := MemStrategies.data cont + length in
        insertRange ins (cend cont) newEnd cont
      else if length <? size cont then
        let newEnd := MemStrategies.data cont + length in
        logEvent cont (Destruct newEnd (cend cont))
      else cont in
    setSize cont length
  else cont.

Definition resize (s : t) (cont : Cont T) (length : Z) : Cont T :=
  resizeWithInserter s cont length placeDefault.

Definition resizeWith (s : t) (cont : Cont T) (length : Z) (ref : T)
    : Cont T :=
  resizeWithInserter s cont length (placeValue ref).

(** [handle()] *)
Definition handle (s : t) : Z := data s.

(** A container bound to the strategy's buffer, with the fixed capacity. *)
Definition bound (s : t) (cont : Cont T) : Prop :=
  MemStrategies.data cont = data s /\
  MemStrategies.capacity cont = capacity s.

(** A call through the interface, and a run of calls. *)
Definition serve (s : t) (cont : Cont T) (req : Request T) : Cont T :=
  match req with
  | ReserveExactly length => reserveExactly s cont length
  | Reserve length => reserve s cont length
  | ShrinkToFit => shrinkToFit s cont
  | Resize length => resize s cont length
  | ResizeWith length ref => resizeWith s cont length ref
  end.

Definition serveAll (s : t) (cont : Cont T) (reqs : list (Request T))
    : Cont T :=
  foldl (serve s) cont reqs.

(** [C] is a template parameter: its [clear()] is taken as it comes. *)
Variable clear : Cont T -> Cont T.

Definition cleanup (s : t) (cont : Cont T) : Cont T := clear cont.

End Ops.

End StaticSized.

(** *** The allocator a [DynamicSized] strategy owns.

    [allocate st len] hands back the address of a buffer of [len] elements
    ([0] for [nullptr]) and the allocator's next state. *)

Module Allocator.

Class t (A : Type) : Type := Build {
  allocate : A -> Z -> Z * A;
  deallocate : A -> Z -> Z -> A
}.

(** An allocator that hands out consecutive addresses and never fails. *)
Record Bump : Type := MkBump { next : Z }.

#[global] Instance bump : t Bump := {|
  allocate st len := (next st, MkBump (next st + len));
  deallocate st ptr len := st
|}.

End Allocator.

(** *** [DynamicSized]: storage grown through an allocator *)

Module DynamicSized.

(** An instance: its [allocator] member and the address of that member. *)
Record t (A : Type) : Type := Build { allocator : A; allocator_addr : Z }.

Arguments Build {A} allocator allocator_addr.
Arguments allocator {A} _.
Arguments allocator_addr {A} _.

Section Ops.
Context {T A : Type} {AllocA : Allocator.t A}.

(** Width of [size_type]. *)
Variable bits : Z.

Definition withAllocator (s : t A) (a : A) : t A :=
  Build a (allocator_addr s).

Definition getMaxCapacity : Z := SizeType.max_value bits.

Definition getRoundedLength (length : Z) : Z :=
  let ROUND_STEP := 8 in
  Z.land (SizeType.add bits length (SizeType.sub bits ROUND_STEP 1))
         (SizeType.lnot bits (SizeType.sub bits ROUND_STEP 1)).

Definition allocate (s : t A) (cont : Cont T) (len : Z) : t A * Cont T :=
  let '(s, cont) :=
    if len >? 0 then
      let '(ptr, a) := Allocator.allocate (allocator s) len in
      (withAllocator s a, setData cont ptr)
    else (s, setData cont 0) in
  if negb (data cont =? 0)
  then (s, setCapacity cont len)
  else (s, setCapacity cont 0).

Definition reallocateAndCopyFor (s : t A) (cont : Cont T) (len : Z)
    : t A * Cont T :=
  let oldData := data cont in
  let oldEnd := cend cont in
  let oldCapacity := capacity cont in
  let '(s, cont) := allocate s cont len in
  if negb (oldData =? 0) then
    let numToCopy := if len <? size cont then len else size cont in
    let cont :=
      if negb (data cont =? 0) && (numToCopy >? 0)
      then logEvent cont (MoveWithPlacement oldData (data cont) numToCopy)
      else cont in
    let cont := logEvent cont (Destruct oldData oldEnd) in
    (withAllocator s (Allocator.deallocate (allocator s) oldData oldCapacity),
     cont)
  else (s, cont).

Definition reserveExactly (s : t A) (cont : Cont T) (length : Z)
    : t A * Cont T :=
  if length >? capacity cont
  then reallocateAndCopyFor s cont length
  else (s, cont).

Definition reserve (s : t A) (cont : Cont T) (length : Z) : t A * Cont T :=
  let cap := capacity cont in
  if length >? cap then
    let goal := Z.max length (SizeType.mul bits 2 cap) in
    reserveExactly s cont (getRoundedLength goal)
  else (s, cont).

Definition shrinkToFit (s : t A) (cont : Cont T) : t A * Cont T :=
  if capacity cont >? size cont
  then reallocateAndCopyFor s cont (size cont)
  else (s, cont).

Definition resizeWithInserter (s : t A) (cont : Cont T) (length : Z)
    (ins : Inserter T) : t A * Cont T :=
  let '(s, cont) :=
    if length >? size cont then
      let '(s, cont) :=
        if length >? capacity cont
        then reallocateAndCopyFor s cont (getRoundedLength length)
        else (s, cont) in
      let newEnd := data cont + length in
      (s, insertRange ins (cend cont) newEnd cont)
    else if length <? size cont then
      let newEnd := data cont + length in
      (s, logEvent cont (Destruct newEnd (cend cont)))
    else (s, cont) in
  (s, setSize cont length).

Definition resize (s : t A) (cont : Cont T) (length : Z) : t A * Cont T :=
  resizeWithInserter s cont length placeDefault.

Definition resizeWith (s : t A) (cont : Cont T) (length : Z) (ref : T)
    : t A * Cont T :=
  resizeWithInserter s cont length (placeValue ref).

(** [UNIQUE_ALLOCATOR], and the address of the function-local
    [static const int h] of the second [getHandle]. *)
Variable UNIQUE_ALLOCATOR : bool.
Variable h : Z.

Definition getHandle (s : t A) : Z :=
  if UNIQUE_ALLOCATOR then allocator_addr s else h.

Definition handle (s : t A) : Z := getHandle s.

(** A call through the interface, and a run of calls. *)
Definition serve (sc : t A * Cont T) (req : Request T) : t A * Cont T :=
  let '(s, cont) := sc in
  match req with
  | ReserveExactly length => reserveExactly s cont length
  | Reserve length => reserve s cont length
  | ShrinkToFit => shrinkToFit s cont
  | Resize length => resize s cont length
  | ResizeWith length ref => resizeWith s cont length ref
  end.

Definition serveAll (s : t A) (cont : Cont T) (reqs : list (Request T))
    : t A * Cont T :=
  foldl serve (s, cont) reqs.

Definition deallocate (s : t A) (cont : Cont T) : t A :=
  withAllocator s
    (Allocator.deallocate (allocator s) (data cont) (capacity cont)).

(** [C] is a template parameter: its [clear()] is taken as it comes. *)
Variable clear : Cont T -> Cont T.

Definition cleanup (s : t A) (cont : Cont T) : t A * Cont T :=
  let cont := clear cont in
  (deallocate s cont, cont).

End Ops.

End DynamicSized.

End MemStrategies.

(** ** [AVectorBase] ([Base/AVectorBase.cpp])

    [swap] works on two objects through references, which may be one and the
    same object: the objects live in a store, keyed by address, and every
    assignment of the body is a read of the store followed by a write. *)

Module AVectorBase.

Inductive Field : Type := data | capacity | size.

Definition get (f : Field) (p : Proxy.t) : Z :=
  match f with
  | data => Proxy.data p
  | capacity => Proxy.capacity p
  | size => Proxy.size p
  end.

Definition set (f : Field) (v : Z) (p : Proxy.t) : Proxy.t :=
  match f with
  | data => Proxy.setData p v
  | capacity => Proxy.setCapacity p v
  | size => Proxy.setSize p v
  end.

(** [obj.proxy.f = v;] *)
Definition assign (obj : Z) (f : Field) (v : Z) (st : gmap Z Proxy.t)
    : gmap Z Proxy.t :=
  alter (set f v) obj st.

(** [dst.proxy.f = src.proxy.f;] *)
Definition copyField (dst src : Z) (f : Field) (st : gmap Z Proxy.t)
    : option (gmap Z Proxy.t) :=
  p ← st !! src; Some (assign dst f (get f p) st).

Definition swap (this other : Z) (st : gmap Z Proxy.t)
    : option (gmap Z Proxy.t) :=
  tmpProxy ← st !! this;
  st ← copyField this other data st;
  st ← copyField this other capacity st;
  st ← copyField this other size st;
  let st := assign other data (Proxy.data tmpProxy) st in
  let st := assign other capacity (Proxy.capacity tmpProxy) st in
  let st := assign other size (Proxy.size tmpProxy) st in
  Some st.

End AVectorBase.

(** ** FIFO iterators ([Base/AFifoIterator.h]) *)

Module Fifo.

Definition uint32 (x : Z) : Z := x mod 2 ^ 32.

(** [AFifoIterator]: the index from the front and the address of the
    [FifoIndexing] object. *)
Record AFifoIterator : Type := MkAFifoIterator { ix : Z; fifo : Z }.

(** [FifoIterator<T>]: an [AFifoIterator] with the address of the buffer. *)
Record FifoIterator : Type := MkFifoIterator { base : AFifoIterator; data : Z }.

(** [operator==] *)
Definition eq (a other : AFifoIterator) : bool :=
  (ix a =? ix other) && (fifo a =? fifo other).

(** [operator!=] *)
Definition ne (a other : AFifoIterator) : bool := negb (eq a other).

(** [operator++()] *)
Definition incr (a : AFifoIterator) : AFifoIterator :=
  MkAFifoIterator (uint32 (ix a + 1)) (fifo a).

(** [operator--()] *)
Definition decr (a : AFifoIterator) : AFifoIterator :=
  MkAFifoIterator (uint32 (ix a - 1)) (fifo a).

(** [operator++(int)] and [operator--(int)]: the old value and the new one. *)
Definition postIncr (a : AFifoIterator) : AFifoIterator * AFifoIterator :=
  let old := a in (old, incr a).

Definition postDecr (a : AFifoIterator) : AFifoIterator * AFifoIterator :=
  let old := a in (old, decr a).

(** The same operators on a [FifoIterator<T>], which inherits them. *)
Definition eqT (a other : FifoIterator) : bool := eq (base a) (base other).

Definition incrT (a : FifoIterator) : FifoIterator :=
  MkFifoIterator (incr (base a)) (data a).

Definition decrT (a : FifoIterator) : FifoIterator :=
  MkFifoIterator (decr (base a)) (data a).

Section Indexing.

(** [FifoIndexing] is declared in [Base/FifoIndexing.h], which is not among
    the sources: its objects and [FifoIndexing::getIndexFromFront] are taken
    as they come.  [mem] holds the [FifoIndexing] objects by address. *)
Context {FifoIndexing : Type}.
Variable getIndexFromFrontOf : FifoIndexing -> Z -> Z.

(** [AFifoIterator::getIndexFromFront] *)
Definition getIndexFromFront (mem : gmap Z FifoIndexing) (a : AFifoIterator)
    (i : Z) : option Z :=
  f ← mem !! fifo a; Some (getIndexFromFrontOf f i).

(** [FifoIterator::get]: the address of the element the iterator denotes. *)
Definition get (mem : gmap Z FifoIndexing) (a : FifoIterator) : option Z :=
  i ← getIndexFromFront mem (base a) (ix (base a)); Some (data a + i).

End Indexing.

End Fifo.

(** ** The comparator of the sorted engine

    The caller-supplied ordering of the keys: [less a b] is [a < b]. *)

Class Comparator (K : Type) : Type := MkComparator { less : K -> K -> bool }.

(** Two keys compare equal when neither is less than the other. *)
Definition keyEqual {K : Type} {Cmp : Comparator K} (a b : K) : bool :=
  negb (less a b) && negb (less b a).

(** What the engine requires of the comparator: a strict weak ordering. *)
Class StrictWeak (K : Type) {Cmp : Comparator K} : Prop := MkStrictWeak {
  less_irreflexive : forall a : K, less a a = false;
  less_transitive :
    forall a b c : K, less a b = true -> less b c = true -> less a c = true;
  not_less_transitive :
    forall a b c : K,
      less a b = false -> less b c = false -> less a c = false
}.

(** Integer keys under [<]. *)
#[global] Instance int_comparator : Comparator Z := {| less := Z.ltb |}.

(** ** The sorted engine under [Map] ([Base/Sorted.h])

    An iterator of the underlying sequence is a position: [begin()] is [0],
    [end()] is the length, [--it] is [it - 1]. *)

Module Sorted.

Section Engine.
Context {Item K : Type} {Cmp : Comparator K}.

(** The key projection [F f] handed to the engine. *)
Variable keyOf : Item -> K.

Definition keys (l : list Item) : list K := keyOf <$> l.

Definition cend (l : list Item) : Z := Z.of_nat (length l).

Definition itemAt (l : list Item) (pos : Z) : option Item :=
  if 0 <=? pos then l !! Z.to_nat pos else None.

Definition keyAt (l : list Item) (pos : Z) : option K :=
  keyOf <$> itemAt l pos.

(** Modelled from the spec: [insertTo] and [emplaceTo] of the underlying
    sequence ([Base/Sorted.h] and the list template are missing from the
    sources) put the item at [pos], in front of the item that was there,
    and hand back the iterator of the new item.  That is with a node of the
    allocator at hand; [Map.emplaceTo] has the case of an allocator that has
    none left. *)
Definition insertTo (l : list Item) (pos : Z) (item : Item)
    : list Item * Z :=
  (take (Z.to_nat pos) l ++ item :: drop (Z.to_nat pos) l, pos).

(** Modelled from the spec: [erase(pos)] of the underlying sequence (missing
    from the sources) removes the item [pos] denotes and hands back the
    iterator of the item after it; a position that denotes no item removes
    nothing. *)
Definition erase (l : list Item) (pos : Z) : list Item * Z :=
  if 0 <=? pos then (delete (Z.to_nat pos) l, pos) else (l, pos).

(** Modelled from the spec: the binary search of [findSortedPosition]
    ([Base/Sorted.h], missing from the sources) for the first position whose
    key is not less than [k], between [lo] and [hi]. *)
Fixpoint bisect (fuel : nat) (l : list Item) (k : K) (lo hi : nat) : nat :=
  match fuel with
  | O => lo
  | S fuel' =>
      if (lo <? hi)%nat then
        let mid := (lo + (hi - lo) / 2)%nat in
        match l !! mid with
        | Some item =>
            if less (keyOf item) k
            then bisect fuel' l k (S mid) hi
            else bisect fuel' l k lo mid
        | None => lo
        end
      else lo
  end.

(** Modelled from the spec: the bisection of section 4.3 over the whole
    sequence. *)
Definition lowerBound (l : list Item) (k : K) : nat :=
  bisect (length l) l k 0 (length l).

(** Modelled from the spec: [findSortedPosition(keyOf, key)]
    ([Base/Sorted.h], missing from the sources) searches the sorted sequence
    by bisection and hands back [(position, exactMatchFound)]: [position] is
    the first position whose key is not less than [key], and
    [exactMatchFound] is true iff that position's key compares equal to
    [key], that is, iff [key] is not less than it either. *)
Definition findSortedPosition (l : list Item) (k : K) : Z * bool :=
  let p := lowerBound l k in
  match l !! p with
  | Some item => (Z.of_nat p, negb (less k (keyOf item)))
  | None => (Z.of_nat p, false)
  end.

(** A search of the kind the callers in [Map.h] step back from, built on
    the one above: the position is moved past the matching item on a match,
    so that [--found.first] denotes the matching item. *)
Definition findSortedPositionAfter (l : list Item) (k : K) : Z * bool :=
  let found := findSortedPosition l k in
  if found.2 then (found.1 + 1, true) else found.

(** Modelled from the spec: [insertUnique(item)] ([Base/Sorted.h], missing
    from the sources) computes [findSortedPosition]; if a match exists no
    insertion occurs and the result flags failure, otherwise the item is
    inserted at [position].  The search is the engine's own,
    [findSortedPosition] above, or the one a caller passes. *)
Definition insertUniqueWith (fsp : list Item -> K -> Z * bool)
    (l : list Item) (item : Item) : list Item * (Z * bool) :=
  let found := fsp l (keyOf item) in
  if negb (snd found) then
    let '(l', it) := insertTo l (fst found) item in
    (l', (it, negb (snd found)))
  else (l, (fst found, negb (snd found))).

(** Modelled from the spec: [insertUnique(item)] on the engine's own
    search. *)
Definition insertUnique (l : list Item) (item : Item)
    : list Item * (Z * bool) :=
  insertUniqueWith findSortedPosition l item.

(** The sequence after [insertUnique] of one item after the other. *)
Definition insertAll (l : list Item) (items : list Item) : list Item :=
  foldl (fun acc item => fst (insertUnique acc item)) l items.

(** A sorted sequence: no key is less than one before it. *)
Definition sorted (l : list Item) : Prop :=
  StronglySorted (fun a b => less b a = false) (keys l).

(** The engine's invariant for unique keys: the keys strictly increase. *)
Definition sortedUnique (l : list Item) : Prop :=
  StronglySorted (fun a b => less a b = true) (keys l).

(** Some stored key compares equal to [k]. *)
Definition stored (l : list Item) (k : K) : Prop :=
  Exists (fun x => keyEqual x k = true) (keys l).

(** [p] is the first position whose key is not less than [k]: every key
    before it is less than [k], and no key from it on is. *)
Definition isLowerBound (l : list Item) (k : K) (p : nat) : Prop :=
  (p <= length l)%nat /\
  Forall (fun x => less x k = true) (take p (keys l)) /\
  Forall (fun x => less x k = false) (drop p (keys l)).

(** What section 4.3 says of a result [(position, exactMatchFound)]:
    [position] is the first position whose key is not less than [k], and
    [exactMatchFound] is true iff that position's key compares equal to
    [k]. *)
Definition lowerBoundResult (l : list Item) (k : K) (found : Z * bool)
    : Prop :=
  0 <= found.1 /\
  isLowerBound l k (Z.to_nat found.1) /\
  (found.2 = true <->
   exists kp, keyAt l found.1 = Some kp /\ keyEqual kp k = true).

End Engine.

End Sorted.

(** ** [Map] ([Map.h]) *)

Module Map.

(** [MapItem<K, E>] *)
Record MapItem (K E : Type) : Type := Item { getKey : K; getElement : E }.

Arguments Item {K E} getKey getElement.
Arguments getKey {K E} _.
Arguments getElement {K E} _.

Definition setElement {K E : Type} (item : MapItem K E) (e : E)
    : MapItem K E :=
  Item (getKey item) e.

Section Ops.
Context {K E : Type}.

(** [MapBase::findSortedPosition(&ItemType::getKey, k)]: declared in
    [Base/Sorted.h], which is not among the sources, and taken as it
    comes. *)
Variable findSortedPosition : list (MapItem K E) -> K -> Z * bool.

(** The nodes the allocator [A] of the list under the map has for this
    map, those the map holds included: [N] of [Pooled::Map<K, E, N>]. *)
Variable N : nat.

Definition cend (m : list (MapItem K E)) : Z := Sorted.cend m.

Definition keyAt (m : list (MapItem K E)) (pos : Z) : option K :=
  Sorted.keyAt getKey m pos.

Definition keys (m : list (MapItem K E)) : list K := Sorted.keys getKey m.

(** [it->setElement(e)]; an iterator that denotes no item changes nothing. *)
Definition setElementAt (m : list (MapItem K E)) (it : Z) (e : E)
    : list (MapItem K E) :=
  if 0 <=? it
  then alter (fun item => setElement item e) (Z.to_nat it) m
  else m.

Definition insert (m : list (MapItem K E)) (k : K) (e : E)
    : list (MapItem K E) * (Z * bool) :=
  Sorted.insertUniqueWith getKey findSortedPosition m (Item k e).

(** Modelled from the spec: [MapBase::emplaceTo] and [MapBase::insertTo] of
    the list under the map ([Base/Sorted.h] and the list template are
    missing from the sources) need a node of the allocator: with one left
    the item goes in front of [pos] and its iterator comes back; with none
    left nothing is inserted and [end()] comes back (section 4.2;
    [Test/testList.cpp], "Allocate all"). *)
Definition emplaceTo (m : list (MapItem K E)) (pos : Z) (item : MapItem K E)
    : list (MapItem K E) * Z :=
  if (length m <? N)%nat then Sorted.insertTo m pos item else (m, cend m).

Definition insertOrAssign (m : list (MapItem K E)) (k : K) (e : E)
    : list (MapItem K E) * (Z * bool) :=
  let found := findSortedPosition m k in
  if negb (snd found) then
    let '(m', it) := emplaceTo m (fst found) (Item k e) in
    (m', (it, negb (snd found)))
  else
    let it := fst found - 1 in
    (setElementAt m it e, (it, negb (snd found))).

Definition erase (m : list (MapItem K E)) (k : K) : list (MapItem K E) :=
  let found := findSortedPosition m k in
  if snd found
  then fst (Sorted.erase m (fst found - 1))
  else m.

Definition find (m : list (MapItem K E)) (k : K) : Z :=
  let found := findSortedPosition m k in
  if snd found
  then fst found - 1
  else cend m.

Definition emplace (m : list (MapItem K E)) (k : K) (e : E)
    : list (MapItem K E) * (Z * bool) :=
  let found := findSortedPosition m k in
  if negb (snd found) then
    let '(m', it) := emplaceTo m (fst found) (Item k e) in
    (m', (it, negb (snd found)))
  else (m, (fst found, negb (snd found))).

(** [getItem(k)], [defaultElement] being the element of [ItemType(k)]. *)
Definition getItem (defaultElement : E) (m : list (MapItem K E)) (k : K)
    : list (MapItem K E) * Z :=
  let found := findSortedPosition m k in
  if negb (snd found)
  then emplaceTo m (fst found) (Item k defaultElement)
  else (m, fst found - 1).

(** What [find], [erase], [insertOrAssign] and [getItem] rely on when they
    step back with [--found.first]: on a match the item before the position
    has the key; without a match no item has it. *)
Definition stepsBack (m : list (MapItem K E)) (k : K) : Prop :=
  ((findSortedPosition m k).2 = true ->
     keyAt m ((findSortedPosition m k).1 - 1) = Some k) /\
  ((findSortedPosition m k).2 = false -> k ∉ keys m).

(** [copyElementsFrom(other)], [other] being another map than [*this]:
    [insertOrAssign] of every item of [other], from [begin()] to [end()]. *)
Definition copyElementsFrom (m other : list (MapItem K E))
    : list (MapItem K E) :=
  foldl (fun m item => (insertOrAssign m (getKey item) (getElement item)).1)
    m other.

(** [Map(const Map& other)] *)
Definition copyOf (other : list (MapItem K E)) : list (MapItem K E) :=
  copyElementsFrom [] other.

(** [find(k)->getElement()], with nothing to hand back at [end()]. *)
Definition elementOf (m : list (MapItem K E)) (k : K) : option E :=
  getElement <$> Sorted.itemAt m (find m k).

(** [getElement(k)] and [operator[](k)]: [getItem(k)->getElement()]. *)
Definition getElementOf (defaultElement : E) (m : list (MapItem K E)) (k : K)
    : list (MapItem K E) * option E :=
  let '(m', it) := getItem defaultElement m k in
  (m', getElement <$> Sorted.itemAt m' it).

(** What the functions of [Map.h] rely on of the search they call, on every
    sequence with strictly increasing keys: they can step back from a
    match, and without a match the position is the first whose key is not
    less than the key, where the new item belongs. *)
Definition searches {Cmp : Comparator K} : Prop :=
  forall (m : list (MapItem K E)) (k : K),
    Sorted.sortedUnique getKey m ->
    stepsBack m k /\
    ((findSortedPosition m k).2 = false ->
       0 <= (findSortedPosition m k).1 /\
       Sorted.isLowerBound getKey m k
         (Z.to_nat (findSortedPosition m k).1)).

End Ops.

End Map.

(** ** The pool allocator and a pooled list

    [PoolAllocator.h] and [List.h] are not among the sources; both are
    modelled from section 4.2 of the specification and from the test
    "Allocate all" of [Test/testList.cpp].  Slots are numbered from [0]. *)

Module Pool.

(** Modelled from the spec: the pool allocator ([PoolAllocator.h], missing
    from the sources) is a fixed array of [N] node slots, a free list and
    the count of ever-claimed slots. *)
Record t : Type :=
  Build { capacity : nat; freeList : list nat; claimed : nat }.

(** Modelled from the spec: a new pool of [N] slots, none claimed. *)
Definition create (N : nat) : t := Build N [] 0.

(** Modelled from the spec: [acquire()] ([PoolAllocator.h], missing from
    the sources) prefers the head of the free list and otherwise claims the
    next never-used slot by bumping the counter; it fails with
    [PoolExhausted] once the free list is empty and the counter is at
    [N]. *)
Definition acquire (p : t) : ContractViolation + nat * t :=
  match freeList p with
  | slot :: rest => inr (slot, Build (capacity p) rest (claimed p))
  | [] =>
      if (claimed p <? capacity p)%nat
      then inr (claimed p, Build (capacity p) [] (S (claimed p)))
      else inl PoolExhausted
  end.

(** Modelled from the spec: [release(addr)] ([PoolAllocator.h], missing
    from the sources) pushes the slot back onto the free list. *)
Definition release (p : t) (slot : nat) : t :=
  Build (capacity p) (slot :: freeList p) (claimed p).

(** The slots handed out and not yet released. *)
Definition inUse (p : t) (slot : nat) : Prop :=
  (slot < claimed p)%nat /\ slot ∉ freeList p.

(** The pool's own invariant: the free list holds claimed slots, each once,
    and no more than [N] slots were ever claimed. *)
Definition wf (p : t) : Prop :=
  NoDup (freeList p) /\
  Forall (fun slot => (slot < claimed p)%nat) (freeList p) /\
  (claimed p <= capacity p)%nat.

End Pool.

Module PooledList.

(** What happens to payloads, in order. *)
Inductive PayloadEvent : Type :=
| Constructed (slot : nat)
| Destroyed (slot : nat).

(** Modelled from the spec: a node-based container on a pool
    ([Etl::Pooled::List] of [List.h], missing from the sources): the pool,
    the nodes in order, each the slot it lives in and its payload, and what
    happened to payloads so far. *)
Record t (T : Type) : Type := Build {
  pool : Pool.t;
  nodes : list (nat * T);
  payloads : list PayloadEvent
}.

Arguments Build {T} pool nodes payloads.
Arguments pool {T} _.
Arguments nodes {T} _.
Arguments payloads {T} _.

Section Ops.
Context {T : Type}.

(** Modelled from the spec: an empty list on a pool of [N] nodes. *)
Definition create (N : nat) : t T := Build (Pool.create N) [] [].

(** Modelled from the spec: [getSize()] and [end()] of the list ([List.h],
    missing from the sources); iterators are positions. *)
Definition getSize (l : t T) : nat := length (nodes l).

Definition cend (l : t T) : Z := Z.of_nat (length (nodes l)).

(** Modelled from the spec: [insert(pos, item)] ([List.h], missing from the
    sources) acquires a node first; when the pool is exhausted nothing is
    constructed and the end iterator comes back ([Test/testList.cpp],
    "Allocate all"); otherwise the payload is constructed in the node,
    which is linked in front of [pos]. *)
Definition insert (l : t T) (pos : Z) (item : T) : t T * Z :=
  match Pool.acquire (pool l) with
  | inl _ => (l, cend l)
  | inr (slot, pool') =>
      (Build pool'
         (take (Z.to_nat pos) (nodes l)
          ++ (slot, item) :: drop (Z.to_nat pos) (nodes l))
         (payloads l ++ [Constructed slot]),
       pos)
  end.

(** Modelled from the spec: [pushBack(item)] is [insert(end(), item)]. *)
Definition pushBack (l : t T) (item : T) : t T :=
  fst (insert l (cend l) item).

(** Modelled from the spec: [erase(pos)] ([List.h], missing from the
    sources) destroys the payload, unlinks the node and releases it to the
    pool; a position that denotes no node changes nothing. *)
Definition erase (l : t T) (pos : Z) : t T * Z :=
  match (if 0 <=? pos then nodes l !! Z.to_nat pos else None) with
  | Some (slot, _) =>
      (Build (Pool.release (pool l) slot)
         (delete (Z.to_nat pos) (nodes l))
         (payloads l ++ [Destroyed slot]),
       pos)
  | None => (l, pos)
  end.

(** The list and its pool fit together: the nodes live in distinct slots,
    each handed out by the pool and not released. *)
Definition wf (l : t T) : Prop :=
  Pool.wf (pool l) /\
  NoDup (fst <$> nodes l) /\
  Forall (Pool.inUse (pool l)) (fst <$> nodes l).

(** The calls a test makes on a list, and the list after a run of them. *)
Inductive Call : Type :=
| CallInsert (pos : Z) (item : T)
| CallPushBack (item : T)
| CallErase (pos : Z).

Definition call (l : t T) (c : Call) : t T :=
  match c with
  | CallInsert pos item => (insert l pos item).1
  | CallPushBack item => pushBack l item
  | CallErase pos => (erase l pos).1
  end.

Definition run (l : t T) (calls : list Call) : t T := foldl call l calls.

End Ops.

End PooledList.

(** ** Sample strategies and containers *)

Module Samples.

Import MemStrategies.

(** A fixed strategy over a buffer of four elements at address 4096, and a
    container bound to it that holds two elements. *)
Definition fixed4 : StaticSized.t := StaticSized.Build 4096 4.

Definition boundTo4 : Cont unit := MkCont (Proxy.Build 4096 4 2) [].

(** A dynamic strategy whose allocator hands out addresses from 8192 on. *)
Definition dynamic : DynamicSized.t Allocator.Bump :=
  DynamicSized.Build (Allocator.MkBump 8192) 512.

(** A container without storage, and a full one of sixteen elements. *)
Definition unallocated : Cont unit := MkCont (Proxy.Build 0 0 0) [].

Definition full16 : Cont unit := MkCont (Proxy.Build 4096 16 16) [].

(** Two vectors, at addresses 1 and 2, and their proxies. *)
Definition proxyA : Proxy.t := Proxy.Build 4096 8 3.

Definition proxyB : Proxy.t := Proxy.Build 8192 16 5.

Definition twoVectors : gmap Z Proxy.t := <[1 := proxyA]> (<[2 := proxyB]> ∅).

(** [Test/testList.cpp], "Allocate all": sixteen [pushBack]s on a pooled
    list of sixteen nodes. *)
Definition sixteenPushBacks : list (@PooledList.Call nat) :=
  PooledList.CallPushBack <$> seq 0 16.

(** A map with the keys 1, 3 and 5. *)
Definition map135 : list (Map.MapItem Z nat) :=
  [Map.Item 1 10%nat; Map.Item 3 30%nat; Map.Item 5 50%nat].

(** The search of the sorted engine, moved past a match, on such maps. *)
Definition searchAfter : list (Map.MapItem Z nat) -> Z -> Z * bool :=
  Sorted.findSortedPositionAfter Map.getKey.

End Samples.

(** * Properties *)

(** ** Arithmetic of [size_type] and of the rounding *)

Module SizeTypeFacts.

Lemma modulus_pos bits : 0 <= bits -> 0 < SizeType.modulus bits.
Proof. intros. unfold SizeType.modulus. apply Z.pow_pos_nonneg; lia. Qed.

Lemma modulus_ge_16 bits : 16 <= bits -> 65536 <= SizeType.modulus bits.
Proof.
  intros. unfold SizeType.modulus.
  change 65536 with (2 ^ 16). apply Z.pow_le_mono_r; lia.
Qed.

Lemma wrap_small bits x :
  0 <= x < SizeType.modulus bits -> SizeType.wrap bits x = x.
Proof. intros. unfold SizeType.wrap. apply Z.mod_small; lia. Qed.

(** Clearing the three low bits is rounding down to a multiple of eight. *)
Lemma land_lnot_7 y : Z.land y (Z.lnot 7) = 8 * (y / 8).
Proof.
  rewrite <- Z.ldiff_land. change 7 with (Z.ones 3).
  rewrite Z.ldiff_ones_r by lia.
  rewrite Z.shiftr_div_pow2, Z.shiftl_mul_pow2 by lia.
  change (2 ^ 3) with 8. lia.
Qed.

(** [~7] on [bits] bits keeps exactly the bits [Z.lnot 7] keeps below
    [2 ^ bits]. *)
Lemma land_lnot_7_wrapped bits y :
  3 <= bits -> 0 <= y < SizeType.modulus bits ->
  Z.land y (SizeType.lnot bits 7) = Z.land y (Z.lnot 7).
Proof.
  intros Hb Hy. unfold SizeType.lnot, SizeType.wrap, SizeType.modulus in *.
  rewrite <- Z.land_ones by lia.
  rewrite (Z.land_comm (Z.lnot 7)), Z.land_assoc.
  rewrite Z.land_ones by lia.
  rewrite Z.mod_small by lia. reflexivity.
Qed.

End SizeTypeFacts.

(** ** The element loop and the log *)

Module ContainerFacts.

Import MemStrategies.

Section Facts.
Context {T : Type}.

Lemma insertLoop_proxy (n : nat) (ins : Inserter T) (it newEnd : Z)
    (c : Cont T) :
  proxy (insertLoop n ins it newEnd c) = proxy c.
Proof.
  revert it c. induction n as [|n IH]; intros it c; simpl; [done|].
  destruct (it <? newEnd); [|done]. by rewrite IH.
Qed.

(** With a counter that outlasts the range, the loop logs one placement
    for every position from [it] up to [newEnd], in order. *)
Lemma insertLoop_log (n : nat) (ins : Inserter T) (it newEnd : Z)
    (c : Cont T) :
  newEnd - it <= Z.of_nat n ->
  log (insertLoop n ins it newEnd c)
  = log c ++ (inserter ins <$> seqZ it (newEnd - it)).
Proof.
  revert it c. induction n as [|n IH]; intros it c Hn; simpl.
  - rewrite seqZ_nil by lia. by rewrite app_nil_r.
  - destruct (Z.ltb_spec it newEnd) as [Hlt|Hge].
    + rewrite IH by lia. simpl.
      rewrite (seqZ_cons it) by lia. rewrite fmap_cons.
      rewrite <- app_assoc. simpl.
      by replace (newEnd - (it + 1)) with (Z.pred (newEnd - it)) by lia.
    + rewrite seqZ_nil by lia. by rewrite app_nil_r.
Qed.

Lemma insertRange_proxy (ins : Inserter T) (first newEnd : Z) (c : Cont T) :
  proxy (insertRange ins first newEnd c) = proxy c.
Proof. apply insertLoop_proxy. Qed.

Lemma insertRange_log (ins : Inserter T) (first newEnd : Z) (c : Cont T) :
  log (insertRange ins first newEnd c)
  = log c ++ (inserter ins <$> seqZ first (newEnd - first)).
Proof. apply insertLoop_log. lia. Qed.

Lemma placements_app (l1 l2 : list (Event T)) :
  placements (l1 ++ l2) = (placements l1 + placements l2)%nat.
Proof. unfold placements. by rewrite filter_app, length_app. Qed.

Lemma placements_none (l : list (Event T)) :
  Forall (fun e => isPlacement e = false) l -> placements l = 0%nat.
Proof.
  unfold placements. induction 1 as [|e l He _ IH]; [done|].
  rewrite filter_cons_False by congruence. done.
Qed.

Lemma placements_inserter (ins : Inserter T) (ps : list Z) :
  placements (inserter ins <$> ps) = length ps.
Proof.
  unfold placements. induction ps as [|p ps IH]; [done|].
  rewrite fmap_cons, filter_cons_True by (by destruct ins). simpl. by f_equal.
Qed.

End Facts.

End ContainerFacts.

(** ** The fixed strategy *)

Module StaticSizedFacts.

Import MemStrategies.

Section Facts.
Context {T : Type}.

(** A request beyond the fixed capacity leaves the container as it was:
    the proxy, the size and the log, to which no [Violation] is added. *)
Lemma growth_beyond_capacity_ignored (s : StaticSized.t) (cont : Cont T)
    (len : Z) (ins : Inserter T) :
  StaticSized.capacity s < len ->
  StaticSized.reserveExactly s cont len = cont /\
  StaticSized.reserve s cont len = cont /\
  StaticSized.resizeWithInserter s cont len ins = cont.
Proof.
  intros Hlen.
  unfold StaticSized.reserveExactly, StaticSized.reserve,
    StaticSized.resizeWithInserter, StaticSized.setupData.
  assert ((len <=? StaticSized.capacity s) = false) as -> by lia.
  auto.
Qed.

(** Whatever is asked of the strategy, a container bound to its buffer
    stays bound to it, with the fixed capacity. *)
Lemma setupData_bound (s : StaticSized.t) (cont : Cont T) (len : Z) :
  StaticSized.bound s cont ->
  StaticSized.bound s (StaticSized.setupData s cont len).
Proof.
  intros Hb. unfold StaticSized.setupData.
  destruct (len <=? StaticSized.capacity s); [|done]. done.
Qed.

Lemma resizeWithInserter_bound (s : StaticSized.t) (cont : Cont T) (len : Z)
    (ins : Inserter T) :
  StaticSized.bound s cont ->
  StaticSized.bound s (StaticSized.resizeWithInserter s cont len ins).
Proof.
  intros Hb. unfold StaticSized.resizeWithInserter.
  destruct (len <=? StaticSized.capacity s); [|done].
  pose proof (setupData_bound s cont len Hb) as [Hd Hc].
  set (cont1 := StaticSized.setupData s cont len) in *.
  unfold StaticSized.bound, data, capacity in *.
  destruct (len >? size cont1); simpl.
  - by rewrite ContainerFacts.insertRange_proxy.
  - destruct (len <? size cont1); done.
Qed.

End Facts.

End StaticSizedFacts.

(** ** The dynamic strategy *)

Module DynamicSizedFacts.

Import MemStrategies.

Section Facts.
Context {T A : Type} {AllocA : Allocator.t A}.

(** As long as [length + 7] does not wrap around, [getRoundedLength] is
    [(length + 7) & ~7] in the integers, the next multiple of eight. *)
Lemma getRoundedLength_no_wrap (bits length : Z) :
  16 <= bits -> 0 <= length -> length + 7 < SizeType.modulus bits ->
  DynamicSized.getRoundedLength bits length = Z.land (length + 7) (Z.lnot 7).
Proof.
  intros Hb H0 Hw. unfold DynamicSized.getRoundedLength.
  pose proof (SizeTypeFacts.modulus_ge_16 bits Hb).
  unfold SizeType.sub, SizeType.add.
  rewrite (SizeTypeFacts.wrap_small bits (8 - 1)) by lia.
  rewrite (SizeTypeFacts.wrap_small bits (length + (8 - 1))) by lia.
  rewrite SizeTypeFacts.land_lnot_7_wrapped by lia.
  reflexivity.
Qed.

Lemma rounded_bounds (x : Z) :
  let r := Z.land (x + 7) (Z.lnot 7) in
  x <= r /\ r <= x + 7 /\ r mod 8 = 0.
Proof.
  simpl. rewrite SizeTypeFacts.land_lnot_7.
  pose proof (Z.div_mod (x + 7) 8 ltac:(lia)).
  pose proof (Z.mod_pos_bound (x + 7) 8 ltac:(lia)).
  repeat split; try lia.
  rewrite Z.mul_comm. apply Z.mod_mul. lia.
Qed.

(** [allocate] with a buffer handed back: the proxy gets the buffer and
    its length, nothing else changes. *)
Lemma allocate_success (s : DynamicSized.t A) (cont : Cont T) (len : Z) :
  0 < len ->
  (Allocator.allocate (DynamicSized.allocator s) len).1 <> 0 ->
  let cont' := (DynamicSized.allocate s cont len).2 in
  data cont' = (Allocator.allocate (DynamicSized.allocator s) len).1 /\
  capacity cont' = len /\ size cont' = size cont /\ log cont' = log cont.
Proof.
  intros Hlen Hptr. unfold DynamicSized.allocate.
  assert ((len >? 0) = true) as -> by lia.
  destruct (Allocator.allocate (DynamicSized.allocator s) len) as [ptr a].
  simpl in Hptr.
  change (data (setData cont ptr)) with ptr.
  assert ((ptr =? 0) = false) as -> by lia. done.
Qed.

(** [reallocateAndCopyFor] with a buffer handed back: the capacity is the
    length asked for, the size stays, and what is logged moves and destroys
    but constructs nothing. *)
Lemma reallocateAndCopyFor_success (s : DynamicSized.t A) (cont : Cont T)
    (len : Z) :
  0 < len ->
  (Allocator.allocate (DynamicSized.allocator s) len).1 <> 0 ->
  let cont' := (DynamicSized.reallocateAndCopyFor s cont len).2 in
  data cont' = (Allocator.allocate (DynamicSized.allocator s) len).1 /\
  capacity cont' = len /\ size cont' = size cont /\
  exists moved, log cont' = log cont ++ moved /\
    Forall (fun e => isPlacement e = false) moved.
Proof.
  intros Hlen Hptr. unfold DynamicSized.reallocateAndCopyFor.
  pose proof (allocate_success s cont len Hlen Hptr) as H. simpl in H.
  destruct (DynamicSized.allocate s cont len) as [s1 cont1]. simpl in H.
  destruct H as (Hd & Hc & Hs & Hl).
  destruct (negb (data cont =? 0)); simpl.
  - destruct (negb (data cont1 =? 0) && _); simpl.
    + repeat split; try done.
      eexists [_; _]. rewrite Hl. split.
      * rewrite <- !app_assoc. simpl. reflexivity.
      * repeat constructor.
    + repeat split; try done.
      eexists [_]. rewrite Hl. split.
      * reflexivity.
      * repeat constructor.
  - repeat split; try done. exists []. by rewrite app_nil_r.
Qed.

End Facts.

End DynamicSizedFacts.

Module MemStrategiesClaims.

Import MemStrategies ContainerFacts DynamicSizedFacts.

(** C1, evaluated on the code: on a fixed strategy of capacity 4, the
    requests [reserveExactly], [reserve] and [resize] for 5 elements hand the
    container back as it was, size and capacity included, and log nothing:
    no [CapacityExceeded] violation is signalled. *)
Theorem fixed_growth_request_is_silently_ignored :
  StaticSized.reserveExactly Samples.fixed4 Samples.boundTo4 5
    = Samples.boundTo4 /\
  StaticSized.reserve Samples.fixed4 Samples.boundTo4 5 = Samples.boundTo4 /\
  StaticSized.resize Samples.fixed4 Samples.boundTo4 5 = Samples.boundTo4 /\
  StaticSized.resizeWith Samples.fixed4 Samples.boundTo4 5 tt
    = Samples.boundTo4 /\
  log (StaticSized.reserve Samples.fixed4 Samples.boundTo4 5) = [].
Proof. repeat split. Qed.

Section Dynamic.
Context {T A : Type} {AllocA : Allocator.t A}.

(** C4, amended: [reserve(n)] with [n <= c] changes nothing.  With [n > c],
    when [max(n, 2c) + 7] does not wrap around in [size_type] and the
    allocator hands back a buffer, the new capacity is exactly
    [(max(n, 2c) + 7) & ~7]; it is then at least [n] and a multiple of
    eight, in particular from capacity [0]. *)
Theorem reserve_capacity_law (bits : Z) (s : DynamicSized.t A)
    (cont : Cont T) (n : Z) :
  16 <= bits ->
  0 <= capacity cont ->
  let cont' := (DynamicSized.reserve bits s cont n).2 in
  (n <= capacity cont -> DynamicSized.reserve bits s cont n = (s, cont)) /\
  (capacity cont < n ->
   Z.max n (2 * capacity cont) + 7 < SizeType.modulus bits ->
   (Allocator.allocate (DynamicSized.allocator s)
      (Z.land (Z.max n (2 * capacity cont) + 7) (Z.lnot 7))).1 <> 0 ->
     capacity cont' = Z.land (Z.max n (2 * capacity cont) + 7) (Z.lnot 7) /\
     n <= capacity cont' /\
     capacity cont' mod 8 = 0).
Proof.
  intros Hb Hc. simpl. unfold DynamicSized.reserve. split.
  - intros Hle. by assert ((n >? capacity cont) = false) as -> by lia.
  - intros Hlt Hw Hptr. assert ((n >? capacity cont) = true) as -> by lia.
    pose proof (SizeTypeFacts.modulus_ge_16 bits Hb).
    unfold SizeType.mul.
    rewrite (SizeTypeFacts.wrap_small bits (2 * capacity cont)) by lia.
    set (goal := Z.max n (2 * capacity cont)) in *.
    rewrite getRoundedLength_no_wrap by lia.
    pose proof (rounded_bounds goal) as (Hlo & _ & Hmod). simpl in Hlo, Hmod.
    set (r := Z.land (goal + 7) (Z.lnot 7)) in *.
    unfold DynamicSized.reserveExactly.
    assert ((r >? capacity cont) = true) as -> by lia.
    pose proof (reallocateAndCopyFor_success s cont r ltac:(lia) Hptr)
      as (_ & Hcap & _).
    rewrite Hcap. repeat split; [lia|done].
Qed.

(** C3, amended: [resize(len)] sets the size to [len].  With [len > size]
    it keeps the storage when [len <= capacity]; when [len > capacity] it
    grows it (given that [len + 7] does not wrap around in [size_type] and
    the allocator hands back a buffer) to exactly [(len + 7) & ~7],
    whatever the old capacity; either way it then constructs exactly the
    [len - size] trailing elements, in order.  With [len < size] it destroys
    exactly the trailing range of [size - len] elements and leaves the
    capacity alone. *)
Theorem resize_law (bits : Z) (s : DynamicSized.t A) (cont : Cont T)
    (len : Z) (ins : Inserter T) :
  16 <= bits ->
  0 <= size cont <= capacity cont ->
  0 <= len ->
  let cont' := (DynamicSized.resizeWithInserter bits s cont len ins).2 in
  size cont' = len /\
  (size cont < len -> len <= capacity cont ->
     proxy cont' = Proxy.setSize (proxy cont) len /\
     log cont'
       = log cont ++
         (inserter ins <$> seqZ (data cont + size cont) (len - size cont))) /\
  (capacity cont < len ->
   len + 7 < SizeType.modulus bits ->
   (Allocator.allocate (DynamicSized.allocator s)
      (Z.land (len + 7) (Z.lnot 7))).1 <> 0 ->
     capacity cont' = Z.land (len + 7) (Z.lnot 7) /\
     placements (log cont')
       = (placements (log cont) + Z.to_nat (len - size cont))%nat /\
     exists moved,
       Forall (fun e => isPlacement e = false) moved /\
       log cont'
         = log cont ++ moved ++
           (inserter ins <$>
              seqZ (data cont' + size cont) (len - size cont))) /\
  (len < size cont ->
     proxy cont' = Proxy.setSize (proxy cont) len /\
     log cont'
       = log cont ++ [Destruct (data cont + len) (data cont + size cont)]).
Proof.
  intros Hb Hsz Hlen. simpl. unfold DynamicSized.resizeWithInserter.
  destruct (Z.gtb_spec len (size cont)) as [Hgrow|Hno].
  - destruct (Z.gtb_spec len (capacity cont)) as [Hre|Hfit].
    + (* grow into a new buffer *)
      destruct (DynamicSized.reallocateAndCopyFor s cont
                  (DynamicSized.getRoundedLength bits len))
        as [s1 cont1] eqn:Hrealloc.
      simpl. split; [done|]. split; [lia|]. split; [|lia].
      intros _ Hw Hptr.
      rewrite getRoundedLength_no_wrap in Hrealloc by lia.
      pose proof (rounded_bounds len) as (Hlo & _ & _). simpl in Hlo.
      pose proof (reallocateAndCopyFor_success s cont
        (Z.land (len + 7) (Z.lnot 7)) ltac:(lia) Hptr) as H.
      rewrite Hrealloc in H. simpl in H.
      destruct H as (_ & Hcap & Hsize & moved & Hlog & Hmoved).
      unfold capacity, data, size in *. simpl.
      rewrite insertRange_proxy.
      rewrite insertRange_log.
      unfold cend, data, size. rewrite Hsize.
      replace (Proxy.data (proxy cont1) + len
               - (Proxy.data (proxy cont1) + Proxy.size (proxy cont)))
        with (len - Proxy.size (proxy cont)) by lia.
      repeat split; try done.
      * rewrite Hlog, !placements_app, placements_inserter, length_seqZ.
        rewrite (placements_none moved Hmoved). lia.
      * exists moved. split; [done|]. by rewrite Hlog, <- app_assoc.
    + (* grow within the buffer *)
      simpl. split; [done|]. split; [|split; lia]. intros _ _.
      rewrite insertRange_proxy.
      rewrite insertRange_log. split; [done|].
      unfold cend. do 3 f_equal. lia.
  - destruct (Z.ltb_spec len (size cont)) as [Hshrink|Heq].
    + simpl. split; [done|]. split; [lia|]. split; [lia|]. done.
    + simpl. split; [done|]. repeat split; lia.
Qed.

(** C9: with [UNIQUE_ALLOCATOR == false] every instance answers [handle()]
    with the address of the one static [h], so two instances are never told
    apart by it; with [UNIQUE_ALLOCATOR == true] an instance answers with the
    address of its own [allocator] member; a fixed strategy answers with the
    address of the buffer it is bound to. *)
Theorem handle_identity (h : Z) (s1 s2 : DynamicSized.t A)
    (fixed : StaticSized.t) :
  DynamicSized.handle false h s1 = h /\
  DynamicSized.handle false h s1 = DynamicSized.handle false h s2 /\
  DynamicSized.handle true h s1 = DynamicSized.allocator_addr s1 /\
  StaticSized.handle fixed = StaticSized.data fixed.
Proof. repeat split. Qed.

End Dynamic.

(** C4 as stated fails where the rounding wraps around: on an unallocated
    container and 64-bit [size_type], [reserve(2^64 - 1)] rounds the goal to
    [0], asks [reserveExactly] for nothing and leaves the capacity at [0],
    which is less than the length asked for. *)
Lemma reserve_wraps_around :
  DynamicSized.getRoundedLength 64 (Z.max (2 ^ 64 - 1) (SizeType.mul 64 2 0))
    = 0 /\
  capacity (DynamicSized.reserve 64 Samples.dynamic Samples.unallocated
              (2 ^ 64 - 1)).2 = 0 /\
  ~ (2 ^ 64 - 1
     <= capacity (DynamicSized.reserve 64 Samples.dynamic Samples.unallocated
                    (2 ^ 64 - 1)).2).
Proof.
  split; [reflexivity|]. split; [reflexivity|].
  vm_compute. intros H. apply H. reflexivity.
Qed.

Lemma reserve_capacity_law_witness :
  capacity (DynamicSized.reserve 64 Samples.dynamic Samples.unallocated 10).2
    = 16 /\
  10 <= capacity
          (DynamicSized.reserve 64 Samples.dynamic Samples.unallocated 10).2 /\
  capacity (DynamicSized.reserve 64 Samples.dynamic Samples.unallocated 10).2
    mod 8 = 0.
Proof.
  pose proof (reserve_capacity_law 64 Samples.dynamic Samples.unallocated 10)
    as H.
  destruct H as [_ Hgrow].
  - lia.
  - vm_compute. discriminate.
  - apply Hgrow.
    + reflexivity.
    + reflexivity.
    + vm_compute. discriminate.
Defined.

(** C3 as stated fails: on a full container of capacity 16, [resize(17)]
    grows the storage to [getRoundedLength(17) = 24], while [reserve(17)]
    would establish [roundUp8(max(17, 32)) = 32]. *)
Lemma resize_does_not_grow_like_reserve :
  capacity (DynamicSized.resize 64 Samples.dynamic Samples.full16 17).2 = 24 /\
  capacity (DynamicSized.reserve 64 Samples.dynamic Samples.full16 17).2 = 32 /\
  DynamicSized.getRoundedLength 64
    (Z.max 17 (SizeType.mul 64 2 (capacity Samples.full16))) = 32.
Proof. repeat split. Qed.

Lemma resize_law_witness :
  size (DynamicSized.resizeWithInserter 64 Samples.dynamic Samples.full16 17
          placeDefault).2 = 17 /\
  capacity (DynamicSized.resizeWithInserter 64 Samples.dynamic Samples.full16
              17 placeDefault).2 = 24.
Proof.
  pose proof (resize_law 64 Samples.dynamic Samples.full16 17 placeDefault)
    as H.
  destruct H as (Hsize & _ & Hgrow & _).
  - lia.
  - vm_compute. split; discriminate.
  - lia.
  - split; [exact Hsize|].
    destruct Hgrow as (Hcap & _).
    + reflexivity.
    + reflexivity.
    + vm_compute. discriminate.
    + exact Hcap.
Defined.

End MemStrategiesClaims.

(** ** [AVectorBase::swap] *)

Module AVectorBaseFacts.

Lemma assign_insert (obj : Z) (f : AVectorBase.Field) (v : Z)
    (st : gmap Z Proxy.t) (r : Proxy.t) :
  st !! obj = Some r ->
  AVectorBase.assign obj f v st = <[obj := AVectorBase.set f v r]> st.
Proof.
  intros Hr. apply map_eq. intros j. unfold AVectorBase.assign.
  rewrite lookup_alter, lookup_insert.
  case_decide; [subst; by rewrite Hr|done].
Qed.

Lemma copyField_insert (dst src : Z) (f : AVectorBase.Field)
    (st : gmap Z Proxy.t) (r q : Proxy.t) :
  st !! dst = Some r -> st !! src = Some q ->
  AVectorBase.copyField dst src f st
  = Some (<[dst := AVectorBase.set f (AVectorBase.get f q) r]> st).
Proof.
  intros Hr Hq. unfold AVectorBase.copyField. rewrite Hq. simpl.
  by rewrite (assign_insert _ _ _ _ r).
Qed.

(** The store after [swap], in closed form. *)
Lemma swap_closed_form (this other : Z) (st : gmap Z Proxy.t)
    (p q : Proxy.t) :
  st !! this = Some p -> st !! other = Some q ->
  AVectorBase.swap this other st = Some (<[other := p]> (<[this := q]> st)).
Proof.
  intros Hp Hq. unfold AVectorBase.swap. rewrite Hp. simpl.
  destruct p as [pd pc ps], q as [qd qc qs].
  destruct (decide (this = other)) as [->|Hne].
  - (* one object under both names *)
    assert (qd = pd /\ qc = pc /\ qs = ps) as (-> & -> & ->)
      by (rewrite Hp in Hq; by inversion Hq).
    rewrite (copyField_insert _ _ _ _ _ _ Hp Hp). simpl.
    erewrite copyField_insert by apply lookup_insert_eq. simpl.
    erewrite copyField_insert by apply lookup_insert_eq. simpl.
    rewrite !insert_insert_eq.
    erewrite (assign_insert _ AVectorBase.data) by apply lookup_insert_eq.
    erewrite (assign_insert _ AVectorBase.capacity) by apply lookup_insert_eq.
    erewrite (assign_insert _ AVectorBase.size) by apply lookup_insert_eq.
    simpl. by rewrite !insert_insert_eq.
  - rewrite (copyField_insert _ _ _ _ _ _ Hp Hq). simpl.
    erewrite copyField_insert;
      [|apply lookup_insert_eq|rewrite lookup_insert_ne; [exact Hq|done]].
    simpl. rewrite insert_insert_eq.
    erewrite copyField_insert;
      [|apply lookup_insert_eq|rewrite lookup_insert_ne; [exact Hq|done]].
    simpl. rewrite insert_insert_eq.
    erewrite (assign_insert _ AVectorBase.data)
      by (rewrite lookup_insert_ne; [exact Hq|done]).
    erewrite (assign_insert _ AVectorBase.capacity) by apply lookup_insert_eq.
    erewrite (assign_insert _ AVectorBase.size) by apply lookup_insert_eq.
    simpl. by rewrite !insert_insert_eq.
Qed.

End AVectorBaseFacts.

Module AVectorBaseClaims.

(** C10: [swap] exchanges the two proxies' triples of data, capacity and
    size: afterwards each object holds the triple the other one held, every
    other object of the store is as before, and a second [swap] of the same
    pair brings the store back. *)
Theorem swap_exchanges_proxies (this other : Z) (st : gmap Z Proxy.t)
    (p q : Proxy.t) :
  st !! this = Some p -> st !! other = Some q ->
  exists st',
    AVectorBase.swap this other st = Some st' /\
    st' !! this = Some q /\
    st' !! other = Some p /\
    (forall obj, obj <> this -> obj <> other -> st' !! obj = st !! obj) /\
    AVectorBase.swap this other st' = Some st.
Proof.
  intros Hp Hq. exists (<[other := p]> (<[this := q]> st)).
  assert ((<[other := p]> (<[this := q]> st)) !! this = Some q) as Hthis.
  { rewrite lookup_insert. case_decide as Heq; [|apply lookup_insert_eq].
    subst. rewrite Hp in Hq. by inversion Hq. }
  assert ((<[other := p]> (<[this := q]> st)) !! other = Some p) as Hother
    by apply lookup_insert_eq.
  split; [by apply AVectorBaseFacts.swap_closed_form|].
  split; [done|]. split; [done|]. split.
  - intros obj H1 H2. by rewrite !lookup_insert_ne.
  - rewrite (AVectorBaseFacts.swap_closed_form _ _ _ _ _ Hthis Hother).
    f_equal. apply map_eq. intros j. rewrite !lookup_insert.
    repeat case_decide; subst; congruence.
Qed.

Lemma swap_exchanges_proxies_witness :
  exists st',
    AVectorBase.swap 1 2 Samples.twoVectors = Some st' /\
    st' !! 1 = Some Samples.proxyB /\
    st' !! 2 = Some Samples.proxyA /\
    (forall obj, obj <> 1 -> obj <> 2 ->
       st' !! obj = Samples.twoVectors !! obj) /\
    AVectorBase.swap 1 2 st' = Some Samples.twoVectors.
Proof.
  apply (swap_exchanges_proxies 1 2 Samples.twoVectors
           Samples.proxyA Samples.proxyB); reflexivity.
Defined.

End AVectorBaseClaims.

(** ** FIFO iterators *)

Module FifoClaims.

Section Iterators.
Context {FifoIndexing : Type}.
Variable getIndexFromFrontOf : FifoIndexing -> Z -> Z.

(** C8: an [AFifoIterator] is its index from the front and the address of
    the index translator, nothing more; [++] and [--] change the index only
    (modulo [2^32]) and leave the translator and, in a [FifoIterator<T>],
    the buffer address alone; dereferencing translates the index through the
    translator as it is when the access happens; two iterators compare equal
    exactly when they hold the same translator and the same index, whatever
    buffer addresses they carry. *)
Theorem fifo_iterator_is_logical (mem : gmap Z FifoIndexing)
    (a b : Fifo.FifoIterator) (f' : FifoIndexing) :
  Fifo.base a
    = Fifo.MkAFifoIterator (Fifo.ix (Fifo.base a)) (Fifo.fifo (Fifo.base a)) /\
  Fifo.incr (Fifo.base a)
    = Fifo.MkAFifoIterator ((Fifo.ix (Fifo.base a) + 1) mod 2 ^ 32)
        (Fifo.fifo (Fifo.base a)) /\
  Fifo.decr (Fifo.base a)
    = Fifo.MkAFifoIterator ((Fifo.ix (Fifo.base a) - 1) mod 2 ^ 32)
        (Fifo.fifo (Fifo.base a)) /\
  Fifo.data (Fifo.incrT a) = Fifo.data a /\
  Fifo.data (Fifo.decrT a) = Fifo.data a /\
  Fifo.get getIndexFromFrontOf mem a
    = (fun f => Fifo.data a + getIndexFromFrontOf f (Fifo.ix (Fifo.base a)))
        <$> mem !! Fifo.fifo (Fifo.base a) /\
  Fifo.get getIndexFromFrontOf (<[Fifo.fifo (Fifo.base a) := f']> mem) a
    = Some (Fifo.data a + getIndexFromFrontOf f' (Fifo.ix (Fifo.base a))) /\
  (Fifo.eqT a b = true <->
     Fifo.fifo (Fifo.base a) = Fifo.fifo (Fifo.base b) /\
     Fifo.ix (Fifo.base a) = Fifo.ix (Fifo.base b)) /\
  Fifo.eqT (Fifo.MkFifoIterator (Fifo.base a) (Fifo.data a))
           (Fifo.MkFifoIterator (Fifo.base a) (Fifo.data b)) = true.
Proof.
  destruct a as [[ia fa] da], b as [[ib fb] db]. simpl.
  repeat split; try done.
  - unfold Fifo.get, Fifo.getIndexFromFront. simpl.
    by destruct (mem !! fa).
  - unfold Fifo.get, Fifo.getIndexFromFront. simpl.
    by rewrite lookup_insert_eq.
  - unfold Fifo.eqT, Fifo.eq in H. simpl in H. lia.
  - unfold Fifo.eqT, Fifo.eq in H. simpl in H. lia.
  - intros [-> ->]. unfold Fifo.eqT, Fifo.eq. simpl. lia.
  - unfold Fifo.eqT, Fifo.eq. simpl. lia.
Qed.

End Iterators.

End FifoClaims.

(** ** The sorted engine *)

Module SortedFacts.

(** The integers under [<] are a comparator as the engine requires it, and
    two integers compare equal only when they are the same. *)
#[global] Instance int_strict_weak : StrictWeak Z.
Proof.
  split; unfold less, int_comparator.
  - intros a. apply Z.ltb_irrefl.
  - intros a b c Hab Hbc. apply Z.ltb_lt. apply Z.ltb_lt in Hab, Hbc. lia.
  - intros a b c Hab Hbc. apply Z.ltb_ge. apply Z.ltb_ge in Hab, Hbc. lia.
Qed.

Lemma int_keyEqual (a b : Z) : keyEqual a b = true -> a = b.
Proof.
  unfold keyEqual, less, int_comparator. intros H.
  apply andb_true_iff in H as [Hab Hba].
  apply negb_true_iff, Z.ltb_ge in Hab, Hba. lia.
Qed.

Section Order.
Context {K : Type} {Cmp : Comparator K} {Laws : StrictWeak K}.

Lemma keyEqual_true (a b : K) :
  keyEqual a b = true <-> less a b = false /\ less b a = false.
Proof.
  unfold keyEqual. rewrite andb_true_iff, !negb_true_iff. done.
Qed.

Lemma keyEqual_reflexive (a : K) : keyEqual a a = true.
Proof using Laws. apply keyEqual_true. by rewrite less_irreflexive. Qed.

Lemma less_not_equal (a b : K) : less a b = true -> keyEqual a b = false.
Proof. intros H. unfold keyEqual. by rewrite H. Qed.

Lemma greater_not_equal (a b : K) : less b a = true -> keyEqual a b = false.
Proof. intros H. unfold keyEqual. rewrite H. apply andb_false_r. Qed.

(** A key that is not less than [k] stays so further up. *)
Lemma not_less_upward (a b k : K) :
  less a k = false -> less a b = true -> less b k = false.
Proof using Laws.
  intros Hak Hab. destruct (less b k) eqn:Hbk; [|done].
  pose proof (less_transitive _ _ _ Hab Hbk). congruence.
Qed.

(** [less] does not tell keys apart that compare equal. *)
Lemma less_equal_r (a b c : K) :
  less a b = true -> keyEqual b c = true -> less a c = true.
Proof using Laws.
  intros Hab [_ Hcb]%keyEqual_true.
  destruct (less a c) eqn:Hac; [done|].
  pose proof (not_less_transitive _ _ _ Hac Hcb). congruence.
Qed.

Lemma less_asymmetric (a b : K) : less a b = true -> less b a = false.
Proof using Laws.
  intros Hab. destruct (less b a) eqn:Hba; [|done].
  pose proof (less_transitive _ _ _ Hab Hba) as Haa.
  by rewrite less_irreflexive in Haa.
Qed.

(** In a strictly increasing list, positions and values are ordered alike. *)
Lemma sorted_lookup_lt (ks : list K) (i j : nat) (a b : K) :
  StronglySorted (fun a b => less a b = true) ks -> (i < j)%nat ->
  ks !! i = Some a -> ks !! j = Some b -> less a b = true.
Proof.
  intros Hs Hij Ha Hb. rewrite <- (take_drop j ks) in Hs.
  apply (StronglySorted_app_1_elem_of _ _ _ a b Hs).
  - apply elem_of_take. eauto.
  - apply list_elem_of_lookup. exists 0%nat.
    by rewrite lookup_drop, Nat.add_0_r.
Qed.

(** No two keys of a strictly increasing list compare equal. *)
Lemma sorted_distinct (ks : list K) (i j : nat) (a b : K) :
  StronglySorted (fun a b => less a b = true) ks -> i <> j ->
  ks !! i = Some a -> ks !! j = Some b -> keyEqual a b = false.
Proof.
  intros Hs Hij Ha Hb. destruct (decide (i < j)%nat).
  - apply less_not_equal. by eapply sorted_lookup_lt.
  - apply greater_not_equal.
    eapply (sorted_lookup_lt ks j i); [done|lia|done|done].
Qed.

Lemma sorted_NoDup (ks : list K) :
  StronglySorted (fun a b => less a b = true) ks -> NoDup ks.
Proof using Laws.
  induction 1 as [|k ks _ IH Hk]; constructor; [|done].
  intros Hin. rewrite Forall_forall in Hk. specialize (Hk k Hin).
  by rewrite less_irreflexive in Hk.
Qed.

Lemma sorted_nondecreasing (ks : list K) :
  StronglySorted (fun a b => less a b = true) ks ->
  StronglySorted (fun a b => less b a = false) ks.
Proof using Laws.
  induction 1 as [|k ks _ IH Hk]; constructor; [done|].
  eapply Forall_impl; [exact Hk|]. simpl. apply less_asymmetric.
Qed.

End Order.

Section Facts.
Context {Item K : Type} {Cmp : Comparator K} {Laws : StrictWeak K}.
Variable keyOf : Item -> K.

Lemma keys_lookup (l : list Item) (i : nat) :
  Sorted.keys keyOf l !! i = keyOf <$> l !! i.
Proof. unfold Sorted.keys. apply list_lookup_fmap. Qed.

Lemma keys_length (l : list Item) :
  length (Sorted.keys keyOf l) = length l.
Proof. unfold Sorted.keys. apply length_fmap. Qed.

Lemma keyAt_nat (l : list Item) (i : nat) :
  Sorted.keyAt keyOf l (Z.of_nat i) = Sorted.keys keyOf l !! i.
Proof.
  unfold Sorted.keyAt, Sorted.itemAt.
  assert ((0 <=? Z.of_nat i) = true) as -> by (apply Z.leb_le; lia).
  by rewrite Nat2Z.id, keys_lookup.
Qed.

Lemma keyAt_Some (l : list Item) (pos : Z) (k : K) :
  Sorted.keyAt keyOf l pos = Some k ->
  0 <= pos < Sorted.cend l /\ Sorted.keys keyOf l !! Z.to_nat pos = Some k.
Proof.
  unfold Sorted.keyAt, Sorted.itemAt, Sorted.cend. intros H.
  destruct (Z.leb_spec 0 pos) as [Hpos|]; [|done].
  rewrite keys_lookup. split; [|done].
  destruct (l !! Z.to_nat pos) eqn:E; [|done].
  apply lookup_lt_Some in E. lia.
Qed.

Lemma stored_lookup (l : list Item) (k : K) :
  Sorted.stored keyOf l k <->
  exists i x, Sorted.keys keyOf l !! i = Some x /\ keyEqual x k = true.
Proof.
  unfold Sorted.stored. rewrite Exists_exists. split.
  - intros (x & [i Hi]%list_elem_of_lookup & Hx). eauto.
  - intros (i & x & Hi & Hx). exists x. split; [|done].
    by apply list_elem_of_lookup_2 in Hi.
Qed.

Lemma bisect_S (fuel : nat) (l : list Item) (k : K) (lo hi : nat) :
  Sorted.bisect keyOf (S fuel) l k lo hi
  = if (lo <? hi)%nat then
      match l !! (lo + (hi - lo) / 2)%nat with
      | Some item =>
          if less (keyOf item) k
          then Sorted.bisect keyOf fuel l k (S (lo + (hi - lo) / 2)) hi
          else Sorted.bisect keyOf fuel l k lo (lo + (hi - lo) / 2)
      | None => lo
      end
    else lo.
Proof. reflexivity. Qed.

(** The bisection keeps its bracket: every key before [lo] is less than
    [k], no key from [hi] on is, and the fuel outlasts the bracket. *)
Lemma bisect_spec (fuel : nat) (l : list Item) (k : K) (lo hi : nat) :
  Sorted.sortedUnique keyOf l ->
  (lo <= hi <= length l)%nat -> (hi - lo <= fuel)%nat ->
  Forall (fun x => less x k = true) (take lo (Sorted.keys keyOf l)) ->
  Forall (fun x => less x k = false) (drop hi (Sorted.keys keyOf l)) ->
  Sorted.isLowerBound keyOf l k (Sorted.bisect keyOf fuel l k lo hi).
Proof using Laws.
  intros Hs. revert lo hi.
  induction fuel as [|fuel IH]; intros lo hi Hb Hf Hlo Hhi.
  - simpl. assert (lo = hi) as -> by lia. split; [lia|done].
  - rewrite bisect_S. destruct (Nat.ltb_spec lo hi) as [Hlt|Hge].
    2:{ assert (lo = hi) as -> by lia. split; [lia|done]. }
    set (mid := (lo + (hi - lo) / 2)%nat) in *.
    assert (lo <= mid < hi)%nat as Hmid.
    { assert ((hi - lo) / 2 < hi - lo)%nat by (apply Nat.div_lt; lia).
      lia. }
    destruct (l !! mid) as [item|] eqn:Emid.
    2:{ apply lookup_ge_None in Emid. lia. }
    assert (Sorted.keys keyOf l !! mid = Some (keyOf item)) as Hkm
      by (by rewrite keys_lookup, Emid).
    destruct (less (keyOf item) k) eqn:Hless.
    + apply IH; [lia|lia| |done].
      apply Forall_lookup. intros i x Hx.
      apply lookup_take_Some in Hx as [Hx Hi].
      destruct (decide (i = mid)) as [->|Hne]; [congruence|].
      pose proof (sorted_lookup_lt _ i mid x _ Hs ltac:(lia) Hx Hkm).
      by eapply less_transitive.
    + apply IH; [lia|lia|done|].
      apply Forall_lookup. intros i x Hx.
      rewrite lookup_drop in Hx.
      destruct (decide (i = 0%nat)) as [->|Hne].
      * rewrite Nat.add_0_r in Hx. congruence.
      * pose proof (sorted_lookup_lt _ mid (mid + i) _ x Hs ltac:(lia) Hkm Hx).
        by eapply not_less_upward.
Qed.

Lemma lowerBound_spec (l : list Item) (k : K) :
  Sorted.sortedUnique keyOf l ->
  Sorted.isLowerBound keyOf l k (Sorted.lowerBound keyOf l k).
Proof using Laws.
  intros Hs. unfold Sorted.lowerBound. apply bisect_spec; try done; try lia.
  rewrite drop_ge; [done|]. rewrite keys_length. lia.
Qed.

(** A stored key that compares equal to [k] sits at the lower bound of
    [k]. *)
Lemma isLowerBound_stored (l : list Item) (k x : K) (p i : nat) :
  Sorted.isLowerBound keyOf l k p -> Sorted.sortedUnique keyOf l ->
  Sorted.keys keyOf l !! i = Some x -> keyEqual x k = true -> i = p.
Proof using Laws.
  intros (Hp & Hbefore & Hafter) Hs Hi Hx.
  apply keyEqual_true in Hx as Hxk. destruct Hxk as [Hxk Hkx].
  rewrite Forall_lookup in Hbefore. rewrite Forall_lookup in Hafter.
  destruct (decide (i < p)%nat) as [Hlt|Hge].
  { specialize (Hbefore i x). rewrite lookup_take_lt in Hbefore by done.
    specialize (Hbefore Hi). congruence. }
  destruct (decide (i = p)) as [->|Hne]; [done|]. exfalso.
  destruct (Sorted.keys keyOf l !! p) as [kp|] eqn:Ep.
  2:{ apply lookup_ge_None in Ep. apply lookup_lt_Some in Hi. lia. }
  pose proof (sorted_lookup_lt _ p i kp x Hs ltac:(lia) Ep Hi) as Hless.
  pose proof (less_equal_r _ _ _ Hless Hx).
  specialize (Hafter 0%nat kp). rewrite lookup_drop, Nat.add_0_r in Hafter.
  specialize (Hafter Ep). congruence.
Qed.

(** On a sequence with strictly increasing keys [findSortedPosition] hands
    back the first position whose key is not less than [k], flagged iff
    the key there compares equal to [k], which is the case iff such a key
    is stored at all. *)
Lemma findSortedPosition_spec (l : list Item) (k : K) :
  Sorted.sortedUnique keyOf l ->
  Sorted.lowerBoundResult keyOf l k (Sorted.findSortedPosition keyOf l k) /\
  (Sorted.findSortedPosition keyOf l k).1 <= Sorted.cend l /\
  ((Sorted.findSortedPosition keyOf l k).2 = true <->
   Sorted.stored keyOf l k).
Proof using Laws.
  intros Hs. pose proof (lowerBound_spec l k Hs) as HLB.
  unfold Sorted.lowerBoundResult, Sorted.findSortedPosition, Sorted.cend.
  set (p := Sorted.lowerBound keyOf l k) in *.
  pose proof HLB as (Hp & _ & Hafter).
  assert (Sorted.stored keyOf l k ->
          exists x, Sorted.keys keyOf l !! p = Some x /\ keyEqual x k = true)
    as Hat.
  { intros (i & x & Hi & Hx)%stored_lookup.
    rewrite <- (isLowerBound_stored l k x p i HLB Hs Hi Hx). eauto. }
  rewrite keys_lookup in Hat.
  destruct (l !! p) as [item|] eqn:Ep; cbn [fst snd];
    rewrite Nat2Z.id, keyAt_nat, keys_lookup, Ep; simpl in *.
  - assert (less (keyOf item) k = false) as Hnotless.
    { rewrite Forall_lookup in Hafter. apply (Hafter 0%nat).
      by rewrite lookup_drop, Nat.add_0_r, keys_lookup, Ep. }
    assert (negb (less k (keyOf item)) = keyEqual (keyOf item) k) as ->
      by (unfold keyEqual; by rewrite Hnotless).
    split; [|split; [lia|]].
    + split; [lia|]. split; [done|]. split.
      * intros Hf. eauto.
      * intros (kp & [= <-] & Hkp). done.
    + split.
      * intros Hf. apply stored_lookup. exists p, (keyOf item).
        by rewrite keys_lookup, Ep.
      * intros (x & [= <-] & Hx)%Hat. done.
  - split; [|split; [lia|]].
    + split; [lia|]. split; [done|]. split; [done|].
      by intros (kp & ? & _).
    + split; [done|]. by intros (x & ? & _)%Hat.
Qed.

Lemma keys_insertTo (l : list Item) (p : nat) (item : Item) :
  Sorted.keys keyOf (Sorted.insertTo l (Z.of_nat p) item).1
  = take p (Sorted.keys keyOf l) ++ keyOf item :: drop p (Sorted.keys keyOf l).
Proof.
  unfold Sorted.insertTo, Sorted.keys. simpl.
  by rewrite Nat2Z.id, fmap_app, fmap_cons, fmap_take, fmap_drop.
Qed.

(** Putting an item whose key is new at the lower bound of that key keeps
    the keys strictly increasing. *)
Lemma insertTo_sorted (l : list Item) (p : nat) (item : Item) :
  Sorted.sortedUnique keyOf l ->
  Sorted.isLowerBound keyOf l (keyOf item) p ->
  ~ Sorted.stored keyOf l (keyOf item) ->
  Sorted.sortedUnique keyOf (Sorted.insertTo l (Z.of_nat p) item).1.
Proof using Laws.
  intros Hs (Hp & Hbefore & Hafter) Hnew.
  unfold Sorted.sortedUnique, Sorted.stored in *. rewrite keys_insertTo.
  set (ks := Sorted.keys keyOf l) in *.
  rewrite <- (take_drop p ks) in Hs.
  apply StronglySorted_app in Hs as (Hcross & Hl & Hr).
  assert (Forall (fun x => less (keyOf item) x = true) (drop p ks))
    as Hafter'.
  { rewrite Forall_forall in Hafter. apply Forall_forall. intros x Hx.
    specialize (Hafter x Hx).
    destruct (less (keyOf item) x) eqn:Hkx; [done|].
    exfalso. apply Hnew. apply Exists_exists. exists x.
    split; [by apply (subseteq_drop p ks)|]. by apply keyEqual_true. }
  apply StronglySorted_app. split; [|split; [done|by constructor]].
  intros x1 x2 H1 H2. rewrite Forall_forall in Hbefore.
  specialize (Hbefore x1 H1). apply elem_of_cons in H2 as [->|H2]; [done|].
  rewrite Forall_forall in Hafter'. specialize (Hafter' x2 H2).
  by eapply less_transitive.
Qed.

Lemma insertUnique_present (l : list Item) (item : Item) :
  Sorted.sortedUnique keyOf l -> Sorted.stored keyOf l (keyOf item) ->
  Sorted.insertUnique keyOf l item
  = (l, ((Sorted.findSortedPosition keyOf l (keyOf item)).1, false)).
Proof using Laws.
  intros Hs Hin.
  pose proof (findSortedPosition_spec l (keyOf item) Hs) as (_ & _ & Hiff).
  apply Hiff in Hin.
  unfold Sorted.insertUnique, Sorted.insertUniqueWith. by rewrite Hin.
Qed.

Lemma insertUnique_absent (l : list Item) (item : Item) :
  Sorted.sortedUnique keyOf l -> ~ Sorted.stored keyOf l (keyOf item) ->
  exists p,
    Sorted.isLowerBound keyOf l (keyOf item) p /\
    Sorted.insertUnique keyOf l item
    = ((Sorted.insertTo l (Z.of_nat p) item).1, (Z.of_nat p, true)).
Proof using Laws.
  intros Hs Hnew.
  pose proof (findSortedPosition_spec l (keyOf item) Hs)
    as ((Hrange & Hlb & _) & _ & Hiff).
  unfold Sorted.insertUnique, Sorted.insertUniqueWith.
  destruct (Sorted.findSortedPosition keyOf l (keyOf item)) as [pos [|]];
    simpl in *.
  - exfalso. apply Hnew. by apply Hiff.
  - exists (Z.to_nat pos). rewrite Z2Nat.id by lia. auto.
Qed.

Lemma insertUnique_sorted (l : list Item) (item : Item) :
  Sorted.sortedUnique keyOf l ->
  Sorted.sortedUnique keyOf (Sorted.insertUnique keyOf l item).1.
Proof using Laws.
  intros Hs.
  pose proof (findSortedPosition_spec l (keyOf item) Hs) as (_ & _ & Hiff).
  destruct (Sorted.findSortedPosition keyOf l (keyOf item)).2 eqn:Hf.
  - rewrite insertUnique_present; [done|done|]. by apply Hiff.
  - assert (~ Sorted.stored keyOf l (keyOf item)) as Hnew.
    { intros Hin. apply Hiff in Hin. congruence. }
    destruct (insertUnique_absent l item Hs Hnew) as (p & Hlb & ->).
    by apply insertTo_sorted.
Qed.

Lemma insertAll_sorted (l items : list Item) :
  Sorted.sortedUnique keyOf l ->
  Sorted.sortedUnique keyOf (Sorted.insertAll keyOf l items).
Proof using Laws.
  revert l. induction items as [|item items IH]; intros l Hs; [done|].
  simpl. apply IH. by apply insertUnique_sorted.
Qed.

(** In a sorted list no key is less than one before it. *)
Lemma sorted_lookup_le (l : list Item) (i j : nat) (a b : K) :
  Sorted.sorted keyOf l -> (i < j)%nat ->
  Sorted.keys keyOf l !! i = Some a -> Sorted.keys keyOf l !! j = Some b ->
  less b a = false.
Proof.
  unfold Sorted.sorted. intros Hs Hij Ha Hb.
  rewrite <- (take_drop j (Sorted.keys keyOf l)) in Hs.
  apply (StronglySorted_app_1_elem_of _ _ _ a b Hs).
  - apply elem_of_take. eauto.
  - apply list_elem_of_lookup. exists 0%nat.
    by rewrite lookup_drop, Nat.add_0_r.
Qed.

Lemma sortedUnique_sorted (l : list Item) :
  Sorted.sortedUnique keyOf l -> Sorted.sorted keyOf l.
Proof using Laws. apply sorted_nondecreasing. Qed.

(** The bisection on any sorted sequence, keys that compare equal
    included: it keeps its bracket, every key before [lo] being less than
    [k] and no key from [hi] on. *)
Lemma bisect_lower_bound (fuel : nat) (l : list Item) (k : K) (lo hi : nat) :
  Sorted.sorted keyOf l ->
  (lo <= hi <= length l)%nat -> (hi - lo <= fuel)%nat ->
  Forall (fun x => less x k = true) (take lo (Sorted.keys keyOf l)) ->
  Forall (fun x => less x k = false) (drop hi (Sorted.keys keyOf l)) ->
  Sorted.isLowerBound keyOf l k (Sorted.bisect keyOf fuel l k lo hi).
Proof using Laws.
  intros Hs. revert lo hi.
  induction fuel as [|fuel IH]; intros lo hi Hb Hf Hlo Hhi.
  - simpl. assert (lo = hi) as -> by lia. split; [lia|done].
  - rewrite bisect_S. destruct (Nat.ltb_spec lo hi) as [Hlt|Hge].
    2:{ assert (lo = hi) as -> by lia. split; [lia|done]. }
    set (mid := (lo + (hi - lo) / 2)%nat) in *.
    assert (lo <= mid < hi)%nat as Hmid.
    { assert ((hi - lo) / 2 < hi - lo)%nat by (apply Nat.div_lt; lia).
      lia. }
    destruct (l !! mid) as [item|] eqn:Emid.
    2:{ apply lookup_ge_None in Emid. lia. }
    assert (Sorted.keys keyOf l !! mid = Some (keyOf item)) as Hkm
      by (by rewrite keys_lookup, Emid).
    destruct (less (keyOf item) k) eqn:Hless.
    + apply IH; [lia|lia| |done].
      apply Forall_lookup. intros i x Hx.
      apply lookup_take_Some in Hx as [Hx Hi].
      destruct (decide (i = mid)) as [->|Hne]; [congruence|].
      pose proof (sorted_lookup_le l i mid x _ Hs ltac:(lia) Hx Hkm) as Hle.
      destruct (less x k) eqn:Hxk; [done|].
      pose proof (not_less_transitive _ _ _ Hle Hxk). congruence.
    + apply IH; [lia|lia|done|].
      apply Forall_lookup. intros i x Hx.
      rewrite lookup_drop in Hx.
      destruct (decide (i = 0%nat)) as [->|Hne].
      * rewrite Nat.add_0_r in Hx. congruence.
      * pose proof (sorted_lookup_le l mid (mid + i) _ x Hs ltac:(lia) Hkm Hx)
          as Hle.
        by eapply not_less_transitive.
Qed.

Lemma lowerBound_sorted (l : list Item) (k : K) :
  Sorted.sorted keyOf l ->
  Sorted.isLowerBound keyOf l k (Sorted.lowerBound keyOf l k).
Proof using Laws.
  intros Hs. unfold Sorted.lowerBound.
  apply bisect_lower_bound; try done; try lia.
  rewrite drop_ge; [done|]. rewrite keys_length. lia.
Qed.

(** With a comparator under which only identical keys compare equal, the
    search moved past a match hands back what the callers of [Map.h] step
    back from. *)
Lemma findSortedPositionAfter_spec (l : list Item) (k : K) :
  (forall a b : K, keyEqual a b = true -> a = b) ->
  Sorted.sortedUnique keyOf l ->
  let found := Sorted.findSortedPositionAfter keyOf l k in
  0 <= found.1 <= Sorted.cend l /\
  (found.2 = true <-> k ∈ Sorted.keys keyOf l) /\
  (found.2 = true -> Sorted.keyAt keyOf l (found.1 - 1) = Some k) /\
  (found.2 = false -> Sorted.isLowerBound keyOf l k (Z.to_nat found.1)).
Proof using Laws.
  intros Hsame Hs.
  pose proof (findSortedPosition_spec l k Hs)
    as ((Hr & Hlb & Hat) & Hend & Hin).
  assert (Sorted.stored keyOf l k <-> k ∈ Sorted.keys keyOf l) as Hstored.
  { unfold Sorted.stored. rewrite Exists_exists. split.
    - intros (x & Hx & Heq). by rewrite <- (Hsame _ _ Heq).
    - intros Hk. exists k. split; [done|]. apply keyEqual_reflexive. }
  rewrite Hstored in Hin.
  unfold Sorted.findSortedPositionAfter.
  destruct (Sorted.findSortedPosition keyOf l k) as [p [|]]; cbn [fst snd] in *.
  - destruct Hat as [Hat _]. destruct (Hat eq_refl) as (kp & Hkp & Heq).
    rewrite (Hsame _ _ Heq) in Hkp.
    apply keyAt_Some in Hkp as Hrange. destruct Hrange as [Hrange _].
    replace (p + 1 - 1) with p by lia.
    split; [lia|]. done.
  - split; [lia|]. done.
Qed.

End Facts.

End SortedFacts.

Module SortedClaims.

Section Engine.
Context {Item K : Type} {Cmp : Comparator K} {Laws : StrictWeak K}.
Variable keyOf : Item -> K.

(** C6: after any sequence of [insertUnique] calls on an empty container
    the keys are non-decreasing under the comparator and no two of them
    compare equal; [insertUnique] of a key that is present inserts nothing,
    leaves the sequence as it is and hands back [inserted == false];
    [insertUnique] of a new key hands back [inserted == true] and the
    iterator of the new item; the integer keys 5, 1, 3, 1, 4 end up as
    1, 3, 4, 5. *)
Theorem insertUnique_sorted_without_duplicates (items : list Item)
    (item : Item) :
  let l := Sorted.insertAll keyOf [] items in
  StronglySorted (fun a b => less b a = false) (Sorted.keys keyOf l) /\
  (forall i j a b, i <> j ->
     Sorted.keys keyOf l !! i = Some a ->
     Sorted.keys keyOf l !! j = Some b -> keyEqual a b = false) /\
  (Sorted.stored keyOf l (keyOf item) ->
     (Sorted.insertUnique keyOf l item).1 = l /\
     (Sorted.insertUnique keyOf l item).2.2 = false) /\
  (~ Sorted.stored keyOf l (keyOf item) ->
     (Sorted.insertUnique keyOf l item).2.2 = true /\
     Sorted.itemAt (Sorted.insertUnique keyOf l item).1
       (Sorted.insertUnique keyOf l item).2.1 = Some item /\
     length (Sorted.insertUnique keyOf l item).1 = S (length l)) /\
  Sorted.insertAll (fun x : Z => x) [] [5; 1; 3; 1; 4] = [1; 3; 4; 5].
Proof using Laws.
  intros l.
  assert (Sorted.sortedUnique keyOf l) as Hs
    by (apply SortedFacts.insertAll_sorted; constructor).
  split; [by apply SortedFacts.sorted_nondecreasing|].
  split; [intros i j a b; by apply SortedFacts.sorted_distinct|].
  split; [|split; [|reflexivity]].
  - intros Hin. by rewrite SortedFacts.insertUnique_present.
  - intros Hnew.
    destruct (SortedFacts.insertUnique_absent keyOf l item Hs Hnew)
      as (p & (Hp & _) & ->). simpl.
    split; [done|]. unfold Sorted.itemAt.
    assert ((0 <=? Z.of_nat p) = true) as -> by (apply Z.leb_le; lia).
    rewrite Nat2Z.id. split.
    + rewrite lookup_app_r by (rewrite length_take; lia).
      rewrite length_take_le by done. by rewrite Nat.sub_diag.
    + rewrite length_app, length_take_le by done. simpl.
      rewrite length_drop. lia.
Qed.

(** C2: on every sorted sequence, keys that compare equal included, and
    for every key [k], [findSortedPosition] hands back a position within
    the sequence that is the first whose key is not less than [k]: every
    key before it is less than [k] and no key from it on is; the flag is
    true iff the position denotes an item and the key of that item compares
    equal to [k]; in particular a true flag comes with the position of a
    matching item. *)
Theorem findSortedPosition_is_lower_bound (l : list Item) (k : K) :
  Sorted.sorted keyOf l ->
  let found := Sorted.findSortedPosition keyOf l k in
  0 <= found.1 <= Sorted.cend l /\
  (forall i kp, Z.of_nat i < found.1 ->
     Sorted.keys keyOf l !! i = Some kp -> less kp k = true) /\
  (forall i kp, found.1 <= Z.of_nat i ->
     Sorted.keys keyOf l !! i = Some kp -> less kp k = false) /\
  (found.2 = true <->
     exists item, Sorted.itemAt l found.1 = Some item /\
                  keyEqual (keyOf item) k = true) /\
  Sorted.lowerBoundResult keyOf l k found.
Proof using Laws.
  intros Hs. cbv zeta.
  pose proof (SortedFacts.lowerBound_sorted keyOf l k Hs) as HLB.
  unfold Sorted.lowerBoundResult, Sorted.findSortedPosition, Sorted.cend.
  set (p := Sorted.lowerBound keyOf l k) in *.
  pose proof HLB as (Hp & Hbefore & Hafter).
  rewrite Forall_lookup in Hbefore. rewrite Forall_lookup in Hafter.
  assert (forall i kp, (i < p)%nat ->
            Sorted.keys keyOf l !! i = Some kp -> less kp k = true) as Hlow.
  { intros i kp Hi Hkp. apply (Hbefore i). by rewrite lookup_take_lt. }
  assert (forall i kp, (p <= i)%nat ->
            Sorted.keys keyOf l !! i = Some kp -> less kp k = false) as Hhigh.
  { intros i kp Hi Hkp. apply (Hafter (i - p)%nat).
    rewrite lookup_drop. by replace (p + (i - p))%nat with i by lia. }
  assert (forall item, l !! p = Some item ->
            negb (less k (keyOf item)) = keyEqual (keyOf item) k) as Hflag.
  { intros item Hitem. unfold keyEqual.
    rewrite (Hhigh p (keyOf item)); [done|lia|].
    by rewrite SortedFacts.keys_lookup, Hitem. }
  assert (Sorted.itemAt l (Z.of_nat p) = l !! p) as Hat.
  { unfold Sorted.itemAt.
    assert ((0 <=? Z.of_nat p) = true) as -> by (apply Z.leb_le; lia).
    by rewrite Nat2Z.id. }
  destruct (l !! p) as [item|] eqn:Ep; cbn [fst snd];
    rewrite Nat2Z.id; unfold Sorted.keyAt; rewrite Hat.
  - rewrite (Hflag item eq_refl).
    split; [lia|]. split; [intros i kp Hi; apply Hlow; lia|].
    split; [intros i kp Hi; apply Hhigh; lia|]. split.
    + split; [eauto|]. by intros (x & [= <-] & Hx).
    + split; [lia|]. split; [done|]. simpl. split; [eauto|].
      by intros (x & [= <-] & Hx).
  - split; [lia|]. split; [intros i kp Hi; apply Hlow; lia|].
    split; [intros i kp Hi; apply Hhigh; lia|]. split.
    + split; [done|]. by intros (x & ? & _).
    + split; [lia|]. split; [done|]. simpl. split; [done|].
      by intros (x & ? & _).
Qed.

End Engine.

(** The key 3 among the keys 1, 3, 3, 5: the first of the two items with
    the key 3 is handed back, with a match. *)
Lemma findSortedPosition_is_lower_bound_witness :
  Sorted.findSortedPosition (fun x : Z => x) [1; 3; 3; 5] 3 = (1, true) /\
  Sorted.lowerBoundResult (fun x : Z => x) [1; 3; 3; 5] 3
    (Sorted.findSortedPosition (fun x : Z => x) [1; 3; 3; 5] 3).
Proof.
  split; [reflexivity|].
  apply (findSortedPosition_is_lower_bound (fun x : Z => x) [1; 3; 3; 5] 3).
  unfold Sorted.sorted. vm_compute. repeat constructor.
Defined.

(** The keys of the specification's example, and one more [insertUnique]
    of the key 3, which is present. *)
Lemma insertUnique_sorted_without_duplicates_witness :
  StronglySorted (fun a b : Z => less b a = false) [1; 3; 4; 5] /\
  Sorted.insertUnique (fun x : Z => x) [1; 3; 4; 5] 3
    = ([1; 3; 4; 5], (1, false)) /\
  Sorted.insertAll (fun x : Z => x) [] [5; 1; 3; 1; 4] = [1; 3; 4; 5].
Proof.
  pose proof (insertUnique_sorted_without_duplicates
                (fun x : Z => x) [5; 1; 3; 1; 4] 3) as H.
  cbv zeta in H. destruct H as (Hsorted & _ & _ & _ & Hex).
  rewrite Hex in Hsorted.
  split; [exact Hsorted|]. split; [reflexivity|exact Hex].
Defined.

End SortedClaims.

(** ** [Map] *)

Module MapFacts.

Section Facts.
Context {K E : Type}.

Lemma keyAt_elem (m : list (Map.MapItem K E)) (pos : Z) (k : K) :
  Map.keyAt m pos = Some k -> k ∈ Map.keys m.
Proof.
  intros H. apply SortedFacts.keyAt_Some in H as [_ H].
  by apply list_elem_of_lookup_2 in H.
Qed.

Lemma keyAt_end (m : list (Map.MapItem K E)) :
  Map.keyAt m (Map.cend m) = None.
Proof.
  unfold Map.cend, Sorted.cend, Map.keyAt.
  rewrite SortedFacts.keyAt_nat. apply lookup_ge_None.
  rewrite SortedFacts.keys_length. lia.
Qed.

(** The search of the sorted engine, moved past a match, is one the callers
    can step back from. *)
Lemma findSortedPositionAfter_stepsBack {Cmp : Comparator K}
    {Laws : StrictWeak K} (m : list (Map.MapItem K E)) (k : K) :
  (forall a b : K, keyEqual a b = true -> a = b) ->
  Sorted.sortedUnique Map.getKey m ->
  Map.stepsBack (Sorted.findSortedPositionAfter Map.getKey) m k.
Proof.
  intros Hsame Hs.
  pose proof (SortedFacts.findSortedPositionAfter_spec Map.getKey m k
                Hsame Hs) as (_ & Hiff & Hmatch & _).
  split.
  - intros Hf. by apply Hmatch.
  - intros Hf Hin. apply Hiff in Hin. congruence.
Qed.

End Facts.

End MapFacts.

Module MapClaims.


End MapClaims.

(** ** The pool allocator and the pooled list *)

Module PoolFacts.

(** Distinct numbers below [n] are at most [n] many. *)
Lemma distinct_below (slots : list nat) (n : nat) :
  NoDup slots -> Forall (fun s => (s < n)%nat) slots ->
  (length slots <= n)%nat.
Proof.
  intros Hnd Hlt. rewrite <- (length_seq n 0).
  apply submseteq_length, NoDup_submseteq; [done|].
  intros s Hs. rewrite Forall_forall in Hlt. specialize (Hlt s Hs).
  apply elem_of_seq. lia.
Qed.

Section Facts.
Context {T : Type}.

Lemma slots_inserted (nodes : list (nat * T)) (n slot : nat) (item : T) :
  fst <$> (take n nodes ++ (slot, item) :: drop n nodes)
  ≡ₚ slot :: (fst <$> nodes).
Proof.
  rewrite fmap_app, fmap_cons. simpl.
  rewrite <- Permutation_middle. constructor.
  by rewrite <- fmap_app, take_drop.
Qed.

Lemma create_wf (N : nat) : PooledList.wf (PooledList.create (T := T) N).
Proof.
  unfold PooledList.wf, Pool.wf. simpl.
  repeat split; try constructor. lia.
Qed.

Lemma insert_wf (l : PooledList.t T) (pos : Z) (item : T) :
  PooledList.wf l -> PooledList.wf (PooledList.insert l pos item).1.
Proof.
  intros ((Hfree & Hclaimed & Hcap) & Hnd & Huse).
  unfold PooledList.insert, Pool.acquire.
  destruct l as [[N free claimed] nodes log]. simpl in *.
  rewrite Forall_forall in Huse. unfold Pool.inUse in Huse. simpl in Huse.
  destruct free as [|slot rest].
  - destruct (Nat.ltb_spec claimed N) as [Hlt|Hge]; simpl.
    2:{ repeat split; try done. by apply Forall_forall. }
    unfold PooledList.wf, Pool.wf. simpl.
    rewrite slots_inserted. repeat split; try done; try lia.
    + constructor; [|done]. intros Hin. specialize (Huse _ Hin). lia.
    + constructor.
      * split; [simpl; lia|]. simpl. apply not_elem_of_nil.
      * apply Forall_forall. intros s Hs. specialize (Huse _ Hs).
        split; simpl; [lia|apply not_elem_of_nil].
  - simpl. unfold PooledList.wf, Pool.wf. simpl.
    apply NoDup_cons in Hfree as [Hslot Hrest].
    apply Forall_cons in Hclaimed as [Hs Hclaimed].
    rewrite slots_inserted. repeat split; try done.
    + constructor; [|done]. intros Hin. specialize (Huse _ Hin).
      destruct Huse as [_ Hout]. apply Hout. by left.
    + constructor; [done|].
      apply Forall_forall. intros s Hin. specialize (Huse _ Hin).
      destruct Huse as [Hlt Hout]. split; simpl; [done|].
      intros Hr. apply Hout. by right.
Qed.

Lemma erase_wf (l : PooledList.t T) (pos : Z) :
  PooledList.wf l -> PooledList.wf (PooledList.erase l pos).1.
Proof.
  intros ((Hfree & Hclaimed & Hcap) & Hnd & Huse).
  unfold PooledList.erase.
  destruct (if 0 <=? pos then PooledList.nodes l !! Z.to_nat pos else None)
    as [[slot item]|] eqn:Hnode; simpl.
  2:{ by repeat split. }
  destruct (0 <=? pos); [|done].
  assert ((fst <$> PooledList.nodes l) !! Z.to_nat pos = Some slot) as Hslot
    by (by rewrite list_lookup_fmap, Hnode).
  pose proof (delete_Permutation _ _ _ Hslot) as Hperm.
  rewrite Hperm in Hnd, Huse.
  apply NoDup_cons in Hnd as [Hout Hnd].
  apply Forall_cons in Huse as [[Hlt Hnotfree] Huse].
  unfold PooledList.wf, Pool.wf, Pool.release. simpl.
  rewrite list_fmap_delete. repeat split; try done.
  - by constructor.
  - by constructor.
  - apply Forall_forall. intros s Hs. rewrite Forall_forall in Huse.
    destruct (Huse s Hs) as [Hs1 Hs2]. split; simpl; [done|].
    intros [->|Hin]%elem_of_cons; done.
Qed.

Lemma run_wf (l : PooledList.t T) (calls : list PooledList.Call) :
  PooledList.wf l -> PooledList.wf (PooledList.run l calls).
Proof.
  revert l. induction calls as [|c calls IH]; intros l Hwf; [done|].
  simpl. apply IH. destruct c; simpl.
  - by apply insert_wf.
  - by apply insert_wf.
  - by apply erase_wf.
Qed.

(** The capacity of the pool is the one it was created with. *)
Lemma insert_capacity (l : PooledList.t T) (pos : Z) (item : T) :
  Pool.capacity (PooledList.pool (PooledList.insert l pos item).1)
  = Pool.capacity (PooledList.pool l).
Proof.
  unfold PooledList.insert, Pool.acquire.
  destruct (Pool.freeList (PooledList.pool l)); [|done].
  by destruct (_ <? _)%nat.
Qed.

Lemma erase_capacity (l : PooledList.t T) (pos : Z) :
  Pool.capacity (PooledList.pool (PooledList.erase l pos).1)
  = Pool.capacity (PooledList.pool l).
Proof.
  unfold PooledList.erase.
  by destruct (if 0 <=? pos then _ else _) as [[slot item]|].
Qed.

Lemma run_capacity (l : PooledList.t T) (calls : list PooledList.Call) :
  Pool.capacity (PooledList.pool (PooledList.run l calls))
  = Pool.capacity (PooledList.pool l).
Proof.
  revert l. induction calls as [|c calls IH]; intros l; [done|].
  simpl. rewrite IH. destruct c; simpl.
  - apply insert_capacity.
  - apply insert_capacity.
  - apply erase_capacity.
Qed.

(** A list that fills its pool leaves the pool with an empty free list and
    every slot claimed. *)
Lemma full_pool (l : PooledList.t T) :
  PooledList.wf l ->
  PooledList.getSize l = Pool.capacity (PooledList.pool l) ->
  Pool.freeList (PooledList.pool l) = [] /\
  Pool.claimed (PooledList.pool l) = Pool.capacity (PooledList.pool l).
Proof.
  intros ((Hfree & Hclaimed & Hcap) & Hnd & Huse) Hsize.
  unfold PooledList.getSize in Hsize.
  assert (NoDup ((fst <$> PooledList.nodes l)
                 ++ Pool.freeList (PooledList.pool l))) as Hall.
  { apply NoDup_app. split; [done|]. split; [|done].
    intros s Hs. rewrite Forall_forall in Huse. by destruct (Huse s Hs). }
  assert (Forall (fun s => (s < Pool.claimed (PooledList.pool l))%nat)
            ((fst <$> PooledList.nodes l)
             ++ Pool.freeList (PooledList.pool l))) as Hbelow.
  { apply Forall_app. split; [|done].
    eapply Forall_impl; [exact Huse|]. by intros s [Hs _]. }
  pose proof (distinct_below _ _ Hall Hbelow) as Hcount.
  rewrite length_app, length_fmap in Hcount.
  split; [|lia].
  destruct (Pool.freeList (PooledList.pool l)); [done|]. simpl in Hcount. lia.
Qed.

End Facts.

End PoolFacts.

Module PoolClaims.

Section Claims.
Context {T : Type}.

(** C5: on a pooled list that was filled to the capacity [N] of its pool by
    any run of calls, [acquire()] fails with [PoolExhausted], and [insert]
    hands back the end iterator and the list as it was: still [N] elements,
    no payload constructed and none destroyed. *)
Theorem full_pool_rejects_insert (N : nat) (calls : list PooledList.Call)
    (pos : Z) (item : T) :
  let l := PooledList.run (PooledList.create N) calls in
  PooledList.getSize l = N ->
  Pool.acquire (PooledList.pool l) = inl PoolExhausted /\
  PooledList.insert l pos item = (l, PooledList.cend l) /\
  PooledList.getSize (PooledList.insert l pos item).1 = N /\
  PooledList.payloads (PooledList.insert l pos item).1
    = PooledList.payloads l.
Proof.
  intros l Hsize.
  assert (PooledList.wf l) as Hwf
    by (apply PoolFacts.run_wf, PoolFacts.create_wf).
  assert (Pool.capacity (PooledList.pool l) = N) as Hcap
    by (unfold l; by rewrite PoolFacts.run_capacity).
  destruct (PoolFacts.full_pool l Hwf ltac:(congruence)) as [Hfree Hclaimed].
  assert (Pool.acquire (PooledList.pool l) = inl PoolExhausted) as Hacq.
  { unfold Pool.acquire. rewrite Hfree, Hclaimed.
    by rewrite Nat.ltb_irrefl. }
  unfold PooledList.insert. rewrite Hacq. done.
Qed.

End Claims.

(** [Test/testList.cpp], "Allocate all": after sixteen [pushBack]s into a
    pooled list of sixteen nodes, [insert(begin(), item)] hands back
    [end()] and the size is still sixteen. *)
Lemma full_pool_rejects_insert_witness :
  Pool.acquire
    (PooledList.pool
       (PooledList.run (PooledList.create 16) Samples.sixteenPushBacks))
    = inl PoolExhausted /\
  PooledList.insert
    (PooledList.run (PooledList.create 16) Samples.sixteenPushBacks) 0 16%nat
    = (PooledList.run (PooledList.create 16) Samples.sixteenPushBacks,
       PooledList.cend
         (PooledList.run (PooledList.create 16) Samples.sixteenPushBacks)) /\
  PooledList.getSize
    (PooledList.insert
       (PooledList.run (PooledList.create 16) Samples.sixteenPushBacks)
       0 16%nat).1 = 16%nat /\
  PooledList.payloads
    (PooledList.insert
       (PooledList.run (PooledList.create 16) Samples.sixteenPushBacks)
       0 16%nat).1
    = PooledList.payloads
        (PooledList.run (PooledList.create 16) Samples.sixteenPushBacks).
Proof.
  apply (full_pool_rejects_insert 16 Samples.sixteenPushBacks 0 16%nat).
  reflexivity.
Defined.

End PoolClaims.

(** * Further properties of the code *)

(** ** The fixed strategy: [resize] within the buffer, runs of requests *)

Module StaticSizedProperties.

Import MemStrategies ContainerFacts.

Section Static.
Context {T : Type}.

(** The proxy after a [resize] the buffer has room for. *)
Lemma resizeWithInserter_proxy (s : StaticSized.t) (cont : Cont T) (len : Z)
    (ins : Inserter T) :
  len <= StaticSized.capacity s ->
  proxy (StaticSized.resizeWithInserter s cont len ins)
  = Proxy.Build (StaticSized.data s) (StaticSized.capacity s) len.
Proof.
  intros Hlen. unfold StaticSized.resizeWithInserter, StaticSized.setupData.
  assert ((len <=? StaticSized.capacity s) = true) as -> by lia.
  destruct (len >? _); simpl.
  - by rewrite insertRange_proxy.
  - by destruct (len <? _).
Qed.

(** X1: [resize(len)] of the fixed strategy with [len] within the fixed
    capacity binds the container to the strategy's buffer, sets the size to
    [len], constructs exactly the elements from the old size up to [len] at
    their places in the buffer when the container grows, and destroys
    exactly the range from [len] up to the old size when it shrinks. *)
Theorem static_resize_within_capacity (s : StaticSized.t) (cont : Cont T)
    (len : Z) (ins : Inserter T) :
  len <= StaticSized.capacity s ->
  let cont' := StaticSized.resizeWithInserter s cont len ins in
  StaticSized.bound s cont' /\
  size cont' = len /\
  (size cont < len ->
     log cont'
     = log cont ++
       (inserter ins <$>
          seqZ (StaticSized.data s + size cont) (len - size cont))) /\
  (len < size cont ->
     log cont'
     = log cont ++
       [Destruct (StaticSized.data s + len)
                 (StaticSized.data s + size cont)]) /\
  (len = size cont -> log cont' = log cont).
Proof.
  intros Hlen. cbv zeta.
  pose proof (resizeWithInserter_proxy s cont len ins Hlen) as Hproxy.
  unfold StaticSized.bound, data, capacity, size. rewrite Hproxy. simpl.
  split; [done|]. split; [done|].
  unfold StaticSized.resizeWithInserter, StaticSized.setupData.
  assert ((len <=? StaticSized.capacity s) = true) as -> by lia.
  unfold size, cend, data, size. simpl.
  split; [|split].
  - intros Hgrow.
    assert ((len >? Proxy.size (proxy cont)) = true) as -> by lia.
    simpl. rewrite insertRange_log. simpl. do 3 f_equal. lia.
  - intros Hshrink.
    assert ((len >? Proxy.size (proxy cont)) = false) as -> by lia.
    by assert ((len <? Proxy.size (proxy cont)) = true) as -> by lia.
  - intros Heq.
    assert ((len >? Proxy.size (proxy cont)) = false) as -> by lia.
    by assert ((len <? Proxy.size (proxy cont)) = false) as -> by lia.
Qed.

(** Every single request keeps a bound container bound and its size within
    the fixed capacity. *)
Lemma serve_within (s : StaticSized.t) (cont : Cont T) (req : Request T) :
  StaticSized.bound s cont ->
  0 <= size cont <= StaticSized.capacity s ->
  Forall (fun len => 0 <= len) (requestedLengths [req]) ->
  StaticSized.bound s (StaticSized.serve s cont req) /\
  0 <= size (StaticSized.serve s cont req) <= StaticSized.capacity s.
Proof.
  intros Hb Hsize Hreq.
  assert (forall len, StaticSized.bound s (StaticSized.setupData s cont len) /\
            size (StaticSized.setupData s cont len) = size cont) as Hsetup.
  { intros len. split; [by apply StaticSizedFacts.setupData_bound|].
    unfold StaticSized.setupData. by destruct (len <=? _). }
  assert (forall len ins, 0 <= len ->
            StaticSized.bound s (StaticSized.resizeWithInserter s cont len ins)
            /\ 0 <= size (StaticSized.resizeWithInserter s cont len ins)
               <= StaticSized.capacity s) as Hresize.
  { intros len ins Hlen.
    split; [by apply StaticSizedFacts.resizeWithInserter_bound|].
    destruct (Z.le_gt_cases len (StaticSized.capacity s)) as [Hfit|Hbig].
    - unfold size. rewrite resizeWithInserter_proxy by done. simpl. lia.
    - destruct (StaticSizedFacts.growth_beyond_capacity_ignored
                  s cont len ins ltac:(lia)) as (_ & _ & ->). done. }
  destruct req as [len|len| |len|len ref]; cbn [StaticSized.serve];
    unfold StaticSized.reserveExactly, StaticSized.reserve,
      StaticSized.shrinkToFit, StaticSized.resize, StaticSized.resizeWith.
  - destruct (Hsetup len) as [? ->]. done.
  - destruct (Hsetup len) as [? ->]. done.
  - destruct (Hsetup (StaticSized.capacity s)) as [? ->]. done.
  - apply Hresize. by inversion Hreq.
  - apply Hresize. by inversion Hreq.
Qed.

(** X2: Whatever run of [reserveExactly], [reserve], [shrinkToFit] and [resize]
    calls is made on a fixed strategy, a container bound to its buffer
    stays bound to it and its size never gets beyond the fixed capacity,
    which is what [getMaxCapacity] answers. *)
Theorem static_requests_stay_within_the_buffer (s : StaticSized.t)
    (cont : Cont T) (reqs : list (Request T)) :
  StaticSized.bound s cont ->
  0 <= size cont <= StaticSized.capacity s ->
  Forall (fun len => 0 <= len) (requestedLengths reqs) ->
  StaticSized.bound s (StaticSized.serveAll s cont reqs) /\
  0 <= size (StaticSized.serveAll s cont reqs)
    <= StaticSized.getMaxCapacity s.
Proof.
  unfold StaticSized.getMaxCapacity.
  revert cont. induction reqs as [|req reqs IH]; intros cont Hb Hsize Hreqs.
  - done.
  - unfold requestedLengths in Hreqs. rewrite bind_cons in Hreqs.
    apply Forall_app in Hreqs as [Hreq Hrest].
    destruct (serve_within s cont req Hb Hsize) as [Hb' Hsize'].
    { unfold requestedLengths. simpl. by rewrite app_nil_r. }
    simpl. by apply IH.
Qed.

End Static.

Lemma static_resize_within_capacity_witness :
  StaticSized.bound Samples.fixed4
    (StaticSized.resize Samples.fixed4 Samples.boundTo4 4) /\
  size (StaticSized.resize Samples.fixed4 Samples.boundTo4 4) = 4 /\
  log (StaticSized.resize Samples.fixed4 Samples.boundTo4 4)
    = [PlaceDefaultTo 4098; PlaceDefaultTo 4099].
Proof.
  pose proof (static_resize_within_capacity Samples.fixed4 Samples.boundTo4 4
                placeDefault) as H.
  destruct H as (Hb & Hs & Hgrow & _).
  - vm_compute. discriminate.
  - split; [exact Hb|]. split; [exact Hs|].
    unfold StaticSized.resize. rewrite Hgrow by reflexivity. reflexivity.
Defined.

Lemma static_requests_stay_within_the_buffer_witness :
  StaticSized.bound Samples.fixed4
    (StaticSized.serveAll Samples.fixed4 Samples.boundTo4
       [Resize 4; Reserve 9; Resize 7; ShrinkToFit; ResizeWith 1 tt]) /\
  0 <= size (StaticSized.serveAll Samples.fixed4 Samples.boundTo4
               [Resize 4; Reserve 9; Resize 7; ShrinkToFit; ResizeWith 1 tt])
    <= 4.
Proof.
  apply (static_requests_stay_within_the_buffer Samples.fixed4
           Samples.boundTo4
           [Resize 4; Reserve 9; Resize 7; ShrinkToFit; ResizeWith 1 tt]).
  - split; reflexivity.
  - vm_compute. split; discriminate.
  - repeat constructor; vm_compute; discriminate.
Defined.

End StaticSizedProperties.

(** ** The dynamic strategy: moving, shrinking, failing, rounding *)

Module DynamicSizedProperties.

Import MemStrategies ContainerFacts DynamicSizedFacts.

Section Dynamic.
Context {T A : Type} {AllocA : Allocator.t A}.

(** [allocate] in closed form. *)
Lemma allocate_closed_form (s : DynamicSized.t A) (cont : Cont T) (len : Z) :
  DynamicSized.allocate s cont len
  = if len >? 0 then
      let new := Allocator.allocate (DynamicSized.allocator s) len in
      (DynamicSized.withAllocator s new.2,
       MkCont (Proxy.Build new.1 (if new.1 =? 0 then 0 else len) (size cont))
         (log cont))
    else (s, MkCont (Proxy.Build 0 0 (size cont)) (log cont)).
Proof.
  unfold DynamicSized.allocate. destruct (len >? 0); [|done].
  destruct (Allocator.allocate (DynamicSized.allocator s) len) as [ptr a].
  simpl. change (data (setData cont ptr)) with ptr.
  by destruct (ptr =? 0).
Qed.

(** [reallocateAndCopyFor] never changes the size and never constructs an
    element. *)
Lemma reallocateAndCopyFor_elements (s : DynamicSized.t A) (cont : Cont T)
    (len : Z) :
  size (DynamicSized.reallocateAndCopyFor s cont len).2 = size cont /\
  placements (log (DynamicSized.reallocateAndCopyFor s cont len).2)
  = placements (log cont).
Proof.
  unfold DynamicSized.reallocateAndCopyFor.
  rewrite allocate_closed_form.
  destruct (len >? 0); cbv zeta;
    destruct (negb (data cont =? 0)); simpl;
    repeat match goal with
           | |- context [if ?b then _ else _] => destruct b; simpl
           end;
    rewrite ?placements_app, ?(placements_none [_]) by (by repeat constructor);
    split; try done; lia.
Qed.

(** X3: [reserveExactly], [reserve] and [shrinkToFit] of either strategy never
    change the size of the container and never construct an element,
    whatever the allocator answers; the fixed strategy's do not touch an
    element at all. *)
Theorem capacity_requests_leave_the_elements_alone (bits : Z)
    (s : DynamicSized.t A) (fixed : StaticSized.t) (cont : Cont T)
    (len : Z) :
  let unchanged (cont' : Cont T) :=
    size cont' = size cont /\
    placements (log cont') = placements (log cont) in
  unchanged (DynamicSized.reserveExactly s cont len).2 /\
  unchanged (DynamicSized.reserve bits s cont len).2 /\
  unchanged (DynamicSized.shrinkToFit s cont).2 /\
  (size (StaticSized.reserveExactly fixed cont len) = size cont /\
   log (StaticSized.reserveExactly fixed cont len) = log cont) /\
  (size (StaticSized.reserve fixed cont len) = size cont /\
   log (StaticSized.reserve fixed cont len) = log cont) /\
  (size (StaticSized.shrinkToFit fixed cont) = size cont /\
   log (StaticSized.shrinkToFit fixed cont) = log cont).
Proof.
  cbv zeta.
  assert (forall n,
            size (DynamicSized.reserveExactly s cont n).2 = size cont /\
            placements (log (DynamicSized.reserveExactly s cont n).2)
            = placements (log cont)) as Hexact.
  { intros n. unfold DynamicSized.reserveExactly.
    destruct (n >? capacity cont); [|done].
    apply reallocateAndCopyFor_elements. }
  assert (forall n, size (StaticSized.setupData fixed cont n) = size cont /\
                    log (StaticSized.setupData fixed cont n) = log cont)
    as Hsetup.
  { intros n. unfold StaticSized.setupData. by destruct (n <=? _). }
  split; [apply Hexact|]. split; [|split].
  - unfold DynamicSized.reserve.
    destruct (len >? capacity cont); [apply Hexact|done].
  - unfold DynamicSized.shrinkToFit.
    destruct (capacity cont >? size cont); [|done].
    apply reallocateAndCopyFor_elements.
  - repeat split; apply Hsetup.
Qed.

(** X4: [reserveExactly(len)] with [len] within the capacity changes nothing.
    Beyond it, when the allocator hands back a buffer, the capacity is
    exactly [len] and the container points to the new buffer with its size
    unchanged; a container that had no buffer logs nothing and releases
    nothing; one that had a buffer moves its elements to the new one (when
    it has any), destroys the old ones and hands the old buffer back to the
    allocator with the old capacity. *)
Theorem reserveExactly_moves_the_elements (s : DynamicSized.t A)
    (cont : Cont T) (len : Z) :
  0 <= size cont <= capacity cont ->
  let new := Allocator.allocate (DynamicSized.allocator s) len in
  let r := DynamicSized.reserveExactly s cont len in
  (len <= capacity cont -> r = (s, cont)) /\
  (capacity cont < len -> new.1 <> 0 ->
     proxy r.2 = Proxy.Build new.1 len (size cont) /\
     (data cont = 0 ->
        log r.2 = log cont /\ DynamicSized.allocator r.1 = new.2) /\
     (data cont <> 0 ->
        log r.2
        = log cont ++
          (if 0 <? size cont
           then [MoveWithPlacement (data cont) new.1 (size cont)]
           else []) ++
          [Destruct (data cont) (data cont + size cont)] /\
        DynamicSized.allocator r.1
        = Allocator.deallocate new.2 (data cont) (capacity cont))).
Proof.
  intros Hsize. cbv zeta. unfold DynamicSized.reserveExactly. split.
  - intros Hle. by assert ((len >? capacity cont) = false) as -> by lia.
  - intros Hlt Hnew. assert ((len >? capacity cont) = true) as -> by lia.
    unfold DynamicSized.reallocateAndCopyFor. rewrite allocate_closed_form.
    assert ((len >? 0) = true) as -> by lia. cbv zeta.
    destruct (Allocator.allocate (DynamicSized.allocator s) len)
      as [ptr a] eqn:Halloc.
    simpl in Hnew. cbn [fst snd].
    assert ((ptr =? 0) = false) as Hptr by lia. rewrite Hptr.
    change (size (MkCont (Proxy.Build ptr len (size cont)) (log cont)))
      with (size cont).
    change (data (MkCont (Proxy.Build ptr len (size cont)) (log cont)))
      with ptr.
    rewrite Hptr.
    assert ((len <? size cont) = false) as -> by lia.
    destruct (Z.eqb_spec (data cont) 0) as [Hnull|Hdata]; simpl.
    + split; [done|]. split; [done|]. intros Hd. by destruct Hd.
    + split; [by destruct (size cont >? 0)|]. split; [done|]. intros _.
      unfold cend. split; [|done].
      destruct (Z.gtb_spec (size cont) 0), (Z.ltb_spec 0 (size cont));
        try lia; simpl; by rewrite <- ?app_assoc.
Qed.

(** [reallocateAndCopyFor] when the allocator has no buffer to hand
    back. *)
Lemma reallocateAndCopyFor_failed (s : DynamicSized.t A) (cont : Cont T)
    (len : Z) :
  0 < len -> data cont <> 0 ->
  (Allocator.allocate (DynamicSized.allocator s) len).1 = 0 ->
  DynamicSized.reallocateAndCopyFor s cont len
  = (DynamicSized.withAllocator s
       (Allocator.deallocate
          (Allocator.allocate (DynamicSized.allocator s) len).2
          (data cont) (capacity cont)),
     MkCont (Proxy.Build 0 0 (size cont))
       (log cont ++ [Destruct (data cont) (data cont + size cont)])).
Proof.
  intros Hlen Hdata Hfail.
  unfold DynamicSized.reallocateAndCopyFor. rewrite allocate_closed_form.
  assert ((len >? 0) = true) as -> by lia. cbv zeta.
  rewrite Hfail. simpl.
  assert ((data cont =? 0) = false) as -> by lia. simpl.
  destruct (len <? size cont); done.
Qed.

(** X5: When the allocator has no buffer to hand back, a growing
    [reserveExactly] still destroys the elements and releases the old
    buffer: the container is left without storage (null data, capacity 0),
    nothing is moved, and the size still says what it said.  A growing
    [resize] in the same situation goes on to construct the new elements at
    the addresses counted from the null pointer and sets the size to the
    length asked for, with the capacity at 0. *)
Theorem failed_allocation_loses_the_elements (bits : Z) (s : DynamicSized.t A)
    (cont : Cont T) (len : Z) (ins : Inserter T) :
  16 <= bits ->
  0 <= size cont <= capacity cont ->
  data cont <> 0 ->
  capacity cont < len ->
  ((Allocator.allocate (DynamicSized.allocator s) len).1 = 0 ->
   let r := DynamicSized.reserveExactly s cont len in
   proxy r.2 = Proxy.Build 0 0 (size cont) /\
   log r.2 = log cont ++ [Destruct (data cont) (data cont + size cont)] /\
   DynamicSized.allocator r.1
   = Allocator.deallocate
       (Allocator.allocate (DynamicSized.allocator s) len).2
       (data cont) (capacity cont)) /\
  (len + 7 < SizeType.modulus bits ->
   (Allocator.allocate (DynamicSized.allocator s)
      (Z.land (len + 7) (Z.lnot 7))).1 = 0 ->
   let r := DynamicSized.resizeWithInserter bits s cont len ins in
   proxy r.2 = Proxy.Build 0 0 len /\
   log r.2
   = log cont ++ [Destruct (data cont) (data cont + size cont)] ++
     (inserter ins <$> seqZ (0 + size cont) (len - size cont))).
Proof.
  intros Hb Hsize Hdata Hlt. split.
  - intros Hfail. cbv zeta. unfold DynamicSized.reserveExactly.
    assert ((len >? capacity cont) = true) as -> by lia.
    rewrite reallocateAndCopyFor_failed by (done || lia). done.
  - intros Hw Hfail. cbv zeta. unfold DynamicSized.resizeWithInserter.
    assert ((len >? size cont) = true) as -> by lia.
    assert ((len >? capacity cont) = true) as -> by lia.
    rewrite getRoundedLength_no_wrap by lia.
    pose proof (rounded_bounds len) as (Hlo & _ & _). simpl in Hlo.
    rewrite reallocateAndCopyFor_failed by (done || lia). simpl.
    rewrite insertRange_proxy, insertRange_log. simpl. split; [done|].
    rewrite <- app_assoc. unfold cend, data, size. simpl.
    repeat f_equal; lia.
Qed.

(** X6: [shrinkToFit] changes nothing unless the capacity is beyond the size.
    An empty container with a buffer gives the buffer back and is left
    without storage, the allocator being asked for nothing.  A container
    with elements gets a buffer of exactly [size] elements (when the
    allocator hands one back), moves its elements there, destroys the old
    ones and gives the old buffer back; when the allocator has none, the
    elements are destroyed all the same and the container is left without
    storage. *)
Theorem shrinkToFit_law (s : DynamicSized.t A) (cont : Cont T) :
  0 <= size cont ->
  let new := Allocator.allocate (DynamicSized.allocator s) (size cont) in
  let r := DynamicSized.shrinkToFit s cont in
  (capacity cont <= size cont -> r = (s, cont)) /\
  (size cont = 0 -> 0 < capacity cont -> data cont <> 0 ->
     proxy r.2 = Proxy.Build 0 0 0 /\
     log r.2 = log cont ++ [Destruct (data cont) (data cont)] /\
     DynamicSized.allocator r.1
     = Allocator.deallocate (DynamicSized.allocator s)
         (data cont) (capacity cont)) /\
  (0 < size cont < capacity cont -> data cont <> 0 -> new.1 <> 0 ->
     proxy r.2 = Proxy.Build new.1 (size cont) (size cont) /\
     log r.2
     = log cont ++
       [MoveWithPlacement (data cont) new.1 (size cont);
        Destruct (data cont) (data cont + size cont)] /\
     DynamicSized.allocator r.1
     = Allocator.deallocate new.2 (data cont) (capacity cont)) /\
  (0 < size cont < capacity cont -> data cont <> 0 -> new.1 = 0 ->
     proxy r.2 = Proxy.Build 0 0 (size cont) /\
     log r.2 = log cont ++ [Destruct (data cont) (data cont + size cont)]).
Proof.
  intros Hsize. cbv zeta. unfold DynamicSized.shrinkToFit.
  split; [|split; [|split]].
  - intros Hle. by assert ((capacity cont >? size cont) = false) as -> by lia.
  - intros Hempty Hcap Hdata.
    assert ((capacity cont >? size cont) = true) as -> by lia.
    unfold DynamicSized.reallocateAndCopyFor. rewrite allocate_closed_form.
    rewrite Hempty. simpl.
    assert ((data cont =? 0) = false) as -> by lia. simpl.
    unfold cend. rewrite Hempty, Z.add_0_r.
    by destruct s.
  - intros Hmid Hdata Hnew.
    assert ((capacity cont >? size cont) = true) as -> by lia.
    unfold DynamicSized.reallocateAndCopyFor. rewrite allocate_closed_form.
    assert ((size cont >? 0) = true) as Hpos by lia. rewrite Hpos. cbv zeta.
    destruct (Allocator.allocate (DynamicSized.allocator s) (size cont))
      as [ptr a].
    simpl in Hnew. cbn [fst snd].
    assert ((ptr =? 0) = false) as Hptr by lia. rewrite Hptr.
    change (size (MkCont (Proxy.Build ptr (size cont) (size cont)) (log cont)))
      with (size cont).
    change (data (MkCont (Proxy.Build ptr (size cont) (size cont)) (log cont)))
      with ptr.
    rewrite Hptr, Z.ltb_irrefl, Hpos.
    assert ((data cont =? 0) = false) as -> by lia. simpl.
    by rewrite <- app_assoc.
  - intros Hmid Hdata Hnew.
    assert ((capacity cont >? size cont) = true) as -> by lia.
    rewrite reallocateAndCopyFor_failed by (done || lia). done.
Qed.

(** X7: [getRoundedLength] hands back the least multiple of eight that is not
    below the length, as long as [length + 7] fits [size_type]; for the
    lengths beyond that, the seven largest values of [size_type], it hands
    back [0].  Rounding a rounded length changes nothing. *)
Theorem getRoundedLength_law (bits length : Z) :
  16 <= bits ->
  0 <= length < SizeType.modulus bits ->
  let r := DynamicSized.getRoundedLength bits length in
  (length + 7 < SizeType.modulus bits ->
     length <= r < length + 8 /\ r mod 8 = 0) /\
  (SizeType.modulus bits <= length + 7 -> r = 0) /\
  0 <= r < SizeType.modulus bits /\
  DynamicSized.getRoundedLength bits r = r.
Proof.
  intros Hb Hlen. cbv zeta.
  pose proof (SizeTypeFacts.modulus_ge_16 bits Hb) as HM.
  assert (SizeType.modulus bits mod 8 = 0) as HM8.
  { unfold SizeType.modulus. replace bits with (3 + (bits - 3)) by lia.
    rewrite Z.pow_add_r by lia. change (2 ^ 3) with 8.
    rewrite Z.mul_comm. apply Z.mod_mul. lia. }
  assert (forall x, 0 <= x -> x + 7 < SizeType.modulus bits ->
            x mod 8 = 0 -> DynamicSized.getRoundedLength bits x = x) as Hfix.
  { intros x Hx Hw Hx8. rewrite getRoundedLength_no_wrap by lia.
    rewrite SizeTypeFacts.land_lnot_7.
    pose proof (Z.div_mod x 8 ltac:(lia)) as Hdiv. rewrite Hx8 in Hdiv.
    replace (x + 7) with (7 + (x / 8) * 8) by lia.
    rewrite Z.div_add by lia. change (7 / 8) with 0. lia. }
  destruct (Z.lt_ge_cases (length + 7) (SizeType.modulus bits)) as [Hw|Hw].
  - rewrite getRoundedLength_no_wrap by lia.
    pose proof (rounded_bounds length) as (Hlo & Hhi & Hmod).
    cbv zeta in Hlo, Hhi, Hmod.
    set (r := Z.land (length + 7) (Z.lnot 7)) in *.
    split; [intros _; split; [lia|done]|]. split; [lia|].
    split; [lia|]. apply Hfix; [lia| |done].
    pose proof (Z.div_mod r 8 ltac:(lia)) as Hr.
    pose proof (Z.div_mod (SizeType.modulus bits) 8 ltac:(lia)) as Hm.
    rewrite Hmod in Hr. rewrite HM8 in Hm. lia.
  - assert (DynamicSized.getRoundedLength bits length = 0) as ->.
    { unfold DynamicSized.getRoundedLength, SizeType.sub, SizeType.add.
      rewrite (SizeTypeFacts.wrap_small bits (8 - 1)) by lia.
      unfold SizeType.wrap at 1.
      replace ((length + (8 - 1)) mod SizeType.modulus bits)
        with (length + 7 - SizeType.modulus bits).
      2:{ apply (Z.mod_unique _ _ 1); lia. }
      rewrite SizeTypeFacts.land_lnot_7_wrapped by lia.
      rewrite SizeTypeFacts.land_lnot_7.
      rewrite Z.div_small by lia. lia. }
    split; [lia|]. split; [done|]. split; [lia|].
    apply Hfix; [lia|lia|done].
Qed.

(** X8: A second [resize] to the same length finds nothing to do: under either
    strategy it constructs and destroys nothing, asks nothing of the
    allocator and hands the container back as the first one left it. *)
Theorem resize_again_changes_nothing (bits : Z) (s : DynamicSized.t A)
    (fixed : StaticSized.t) (cont : Cont T) (len : Z) (ins ins' : Inserter T) :
  DynamicSized.resizeWithInserter bits
    (DynamicSized.resizeWithInserter bits s cont len ins).1
    (DynamicSized.resizeWithInserter bits s cont len ins).2 len ins'
  = DynamicSized.resizeWithInserter bits s cont len ins /\
  StaticSized.resizeWithInserter fixed
    (StaticSized.resizeWithInserter fixed cont len ins) len ins'
  = StaticSized.resizeWithInserter fixed cont len ins.
Proof.
  split.
  - assert (exists s1 c1,
              DynamicSized.resizeWithInserter bits s cont len ins
              = (s1, setSize c1 len)) as (s1 & c1 & ->).
    { unfold DynamicSized.resizeWithInserter.
      destruct (len >? size cont).
      - destruct (if len >? capacity cont then _ else _) as [s1 c1]. eauto.
      - destruct (len <? size cont); eauto. }
    unfold DynamicSized.resizeWithInserter. cbn [fst snd].
    change (size (setSize c1 len)) with len.
    assert ((len >? len) = false) as -> by lia.
    by rewrite Z.ltb_irrefl.
  - destruct (Z.le_gt_cases len (StaticSized.capacity fixed)) as [Hfit|Hbig].
    + pose proof (StaticSizedProperties.resizeWithInserter_proxy
                    fixed cont len ins Hfit) as Hproxy.
      destruct (StaticSized.resizeWithInserter fixed cont len ins)
        as [p1 l1]. simpl in Hproxy. subst p1.
      unfold StaticSized.resizeWithInserter, StaticSized.setupData.
      assert ((len <=? StaticSized.capacity fixed) = true) as -> by lia.
      unfold size, setCapacity, setData. simpl.
      assert ((len >? len) = false) as -> by lia.
      by rewrite Z.ltb_irrefl.
    + destruct (StaticSizedFacts.growth_beyond_capacity_ignored
                  fixed cont len ins ltac:(lia)) as (_ & _ & Heq).
      rewrite Heq.
      by destruct (StaticSizedFacts.growth_beyond_capacity_ignored
                     fixed cont len ins' ltac:(lia)) as (_ & _ & ->).
Qed.

(** X9: Growing a container within its capacity and shrinking it back to the
    size it had destroys exactly the elements the growing constructed: the
    proxy is as before, the allocator is not involved, and the log holds
    the placements from the old end up to the new one, followed by one
    [destruct] of that very range.  The same holds under the fixed strategy
    for a container bound to its buffer. *)
Theorem grow_then_shrink_back (bits : Z) (s : DynamicSized.t A)
    (fixed : StaticSized.t) (cont : Cont T) (len : Z) (ins : Inserter T) :
  size cont < len ->
  let after_both :=
    MkCont (proxy cont)
      (log cont ++
       (inserter ins <$> seqZ (data cont + size cont) (len - size cont)) ++
       [Destruct (data cont + size cont) (data cont + len)]) in
  (len <= capacity cont ->
     let r := DynamicSized.resizeWithInserter bits s cont len ins in
     DynamicSized.resizeWithInserter bits r.1 r.2 (size cont) ins
     = (s, after_both)) /\
  (StaticSized.bound fixed cont -> len <= StaticSized.capacity fixed ->
     StaticSized.resizeWithInserter fixed
       (StaticSized.resizeWithInserter fixed cont len ins) (size cont) ins
     = after_both).
Proof.
  intros Hgrow. cbv zeta.
  assert (forall c : Cont T,
            proxy c = Proxy.setSize (proxy cont) len ->
            log c = log cont ++
                    (inserter ins <$>
                       seqZ (data cont + size cont) (len - size cont)) ->
            setSize (logEvent c (Destruct (data c + size cont) (cend c)))
              (size cont)
            = MkCont (proxy cont)
                (log cont ++
                 (inserter ins <$>
                    seqZ (data cont + size cont) (len - size cont)) ++
                 [Destruct (data cont + size cont) (data cont + len)]))
    as Hback.
  { intros [p l] Hp Hl. simpl in Hp, Hl. subst p l.
    unfold setSize, logEvent, cend, data, size. simpl.
    rewrite <- app_assoc. by destruct cont as [[d c n] l]. }
  set (grown := insertRange ins (cend cont) (data cont + len) cont).
  assert (proxy (setSize grown len) = Proxy.setSize (proxy cont) len /\
          log (setSize grown len)
          = log cont ++
            (inserter ins <$> seqZ (data cont + size cont) (len - size cont)))
    as [Hp Hl].
  { unfold grown. simpl. rewrite insertRange_proxy, insertRange_log.
    split; [done|]. unfold cend. do 3 f_equal. lia. }
  split.
  - intros Hfit.
    assert (DynamicSized.resizeWithInserter bits s cont len ins
            = (s, setSize grown len)) as ->.
    { unfold DynamicSized.resizeWithInserter.
      assert ((len >? size cont) = true) as -> by lia.
      by assert ((len >? capacity cont) = false) as -> by lia. }
    cbn [fst snd]. unfold DynamicSized.resizeWithInserter.
    change (size (setSize grown len)) with len.
    assert ((size cont >? len) = false) as -> by lia.
    assert ((size cont <? len) = true) as -> by lia.
    f_equal. by apply Hback.
  - intros [Hd Hc] Hfit.
    assert (forall c : Cont T,
              data c = StaticSized.data fixed ->
              capacity c = StaticSized.capacity fixed ->
              setCapacity (setData c (StaticSized.data fixed))
                (StaticSized.capacity fixed) = c) as Hbound.
    { intros [[d c n] l] Hd' Hc'. unfold data, capacity in *. simpl in *.
      by subst. }
    assert (StaticSized.resizeWithInserter fixed cont len ins
            = setSize grown len) as ->.
    { unfold StaticSized.resizeWithInserter, StaticSized.setupData.
      assert ((len <=? StaticSized.capacity fixed) = true) as -> by lia.
      rewrite Hbound by done.
      by assert ((len >? size cont) = true) as -> by lia. }
    unfold StaticSized.resizeWithInserter, StaticSized.setupData.
    assert ((size cont <=? StaticSized.capacity fixed) = true) as -> by lia.
    rewrite Hbound.
    + change (size (setSize grown len)) with len.
      assert ((size cont >? len) = false) as -> by lia.
      assert ((size cont <? len) = true) as -> by lia.
      by apply Hback.
    + unfold data in *. simpl. unfold grown. by rewrite insertRange_proxy.
    + unfold capacity in *. simpl. unfold grown. by rewrite insertRange_proxy.
Qed.

(** With an allocator that delivers, [reallocateAndCopyFor] sets the
    capacity to the length asked for, whatever it is. *)
Lemma reallocateAndCopyFor_delivers (ok : A -> Prop) (s : DynamicSized.t A)
    (cont : Cont T) (len : Z) :
  (forall a n, ok a -> 0 < n ->
     (Allocator.allocate a n).1 <> 0 /\ ok (Allocator.allocate a n).2) ->
  (forall a ptr n, ok a -> ok (Allocator.deallocate a ptr n)) ->
  ok (DynamicSized.allocator s) -> 0 <= len ->
  capacity (DynamicSized.reallocateAndCopyFor s cont len).2 = len /\
  size (DynamicSized.reallocateAndCopyFor s cont len).2 = size cont /\
  ok (DynamicSized.allocator (DynamicSized.reallocateAndCopyFor s cont len).1).
Proof.
  intros Halloc Hdealloc Hok Hlen.
  split; [|split; [apply reallocateAndCopyFor_elements|]].
  - unfold DynamicSized.reallocateAndCopyFor. rewrite allocate_closed_form.
    destruct (Z.gtb_spec len 0) as [Hpos|Hzero]; cbv zeta.
    + destruct (Halloc _ len Hok Hpos) as [Hptr _].
      destruct (Allocator.allocate (DynamicSized.allocator s) len)
        as [ptr a]. simpl in *.
      assert ((ptr =? 0) = false) as -> by lia.
      destruct (negb (data cont =? 0)); [|done].
      by destruct (negb _ && _).
    + destruct (negb (data cont =? 0)); simpl; [|unfold capacity; simpl; lia].
      unfold capacity. simpl. lia.
  - unfold DynamicSized.reallocateAndCopyFor. rewrite allocate_closed_form.
    destruct (Z.gtb_spec len 0) as [Hpos|Hzero]; cbv zeta.
    + destruct (Halloc _ len Hok Hpos) as [_ Hok'].
      destruct (Allocator.allocate (DynamicSized.allocator s) len)
        as [ptr a]. simpl in *.
      destruct (negb (data cont =? 0)); simpl; [|done].
      by apply Hdealloc.
    + destruct (negb (data cont =? 0)); simpl; [|done].
      by apply Hdealloc.
Qed.

(** X10: With an allocator that always hands back a buffer, and lengths that
    leave room for the rounding, any run of [reserveExactly], [reserve],
    [shrinkToFit] and [resize] calls keeps the size of the container within
    its capacity, and the capacity within what [getMaxCapacity] answers. *)
Theorem dynamic_requests_keep_size_within_capacity (ok : A -> Prop)
    (bits : Z) (s : DynamicSized.t A) (cont : Cont T)
    (reqs : list (Request T)) :
  16 <= bits ->
  (forall a n, ok a -> 0 < n ->
     (Allocator.allocate a n).1 <> 0 /\ ok (Allocator.allocate a n).2) ->
  (forall a ptr n, ok a -> ok (Allocator.deallocate a ptr n)) ->
  ok (DynamicSized.allocator s) ->
  0 <= size cont <= capacity cont ->
  capacity cont < SizeType.modulus bits ->
  Forall (fun len => 0 <= len /\ len + 7 < SizeType.modulus bits)
    (requestedLengths reqs) ->
  let r := DynamicSized.serveAll bits s cont reqs in
  0 <= size r.2 <= capacity r.2 /\
  capacity r.2 <= DynamicSized.getMaxCapacity bits /\
  ok (DynamicSized.allocator r.1).
Proof.
  intros Hb Halloc Hdealloc.
  assert (forall c : Z, c <= DynamicSized.getMaxCapacity bits
                        <-> c < SizeType.modulus bits) as Hmax
    by (intros c; unfold DynamicSized.getMaxCapacity, SizeType.max_value; lia).
  cbv zeta. setoid_rewrite Hmax. unfold DynamicSized.serveAll.
  revert s cont. induction reqs as [|req reqs IH];
    intros s cont Hok Hsize Hcap Hreqs; [done|].
  unfold requestedLengths in Hreqs. rewrite bind_cons in Hreqs.
  apply Forall_app in Hreqs as [Hreq Hrest].
  pose proof (SizeTypeFacts.modulus_ge_16 bits Hb) as HM.
  assert (forall n, 0 <= n < SizeType.modulus bits ->
            let r := DynamicSized.reserveExactly s cont n in
            (0 <= size r.2 <= capacity r.2) /\
            capacity r.2 < SizeType.modulus bits /\
            ok (DynamicSized.allocator r.1)) as Hexact.
  { intros n Hn. cbv zeta. unfold DynamicSized.reserveExactly.
    destruct (Z.gtb_spec n (capacity cont)) as [Hgrow|Hfit]; [|done].
    destruct (reallocateAndCopyFor_delivers ok s cont n Halloc Hdealloc Hok
                ltac:(lia)) as (-> & -> & Hok').
    split; [lia|]. split; [lia|done]. }
  assert (forall n ins, 0 <= n -> n + 7 < SizeType.modulus bits ->
            let r := DynamicSized.resizeWithInserter bits s cont n ins in
            (0 <= size r.2 <= capacity r.2) /\
            capacity r.2 < SizeType.modulus bits /\
            ok (DynamicSized.allocator r.1)) as Hresize.
  { intros n ins Hn Hw. cbv zeta. unfold DynamicSized.resizeWithInserter.
    destruct (Z.gtb_spec n (size cont)) as [Hgrow|Hno].
    - destruct (Z.gtb_spec n (capacity cont)) as [Hre|Hfit].
      + destruct (getRoundedLength_law bits n Hb ltac:(lia))
          as (Hround & _ & Hrange & _).
        specialize (Hround Hw).
        destruct (reallocateAndCopyFor_delivers ok s cont
                    (DynamicSized.getRoundedLength bits n)
                    Halloc Hdealloc Hok ltac:(lia)) as (Hc & _ & Hok').
        destruct (DynamicSized.reallocateAndCopyFor s cont _) as [s1 c1].
        simpl in *. unfold size, capacity in *. simpl.
        rewrite insertRange_proxy. split; [lia|]. split; [lia|done].
      + simpl. unfold size, capacity in *. simpl.
        rewrite insertRange_proxy. split; [lia|]. split; [lia|done].
    - destruct (n <? size cont); simpl; unfold size, capacity in *; simpl;
        (split; [lia|]); (split; [lia|done]). }
  simpl. destruct req as [n|n| |n|n ref]; cbn [DynamicSized.serve].
  - inversion Hreq as [|? ? [Hn Hw] _]; subst.
    destruct (Hexact n ltac:(lia)) as (H1 & H2 & H3).
    destruct (DynamicSized.reserveExactly s cont n) as [s1 c1].
    by apply IH.
  - assert (let r := DynamicSized.reserve bits s cont n in
            (0 <= size r.2 <= capacity r.2) /\
            capacity r.2 < SizeType.modulus bits /\
            ok (DynamicSized.allocator r.1)) as (H1 & H2 & H3).
    { cbv zeta. unfold DynamicSized.reserve.
      destruct (n >? capacity cont); [|done].
      apply Hexact.
      inversion Hreq as [|? ? [Hn Hw] _]; subst.
      eapply getRoundedLength_law; [done|].
      unfold SizeType.mul, SizeType.wrap.
      pose proof (Z.mod_pos_bound (2 * capacity cont) (SizeType.modulus bits)
                    ltac:(lia)).
      lia. }
    destruct (DynamicSized.reserve bits s cont n) as [s1 c1].
    by apply IH.
  - assert (let r := DynamicSized.shrinkToFit s cont in
            (0 <= size r.2 <= capacity r.2) /\
            capacity r.2 < SizeType.modulus bits /\
            ok (DynamicSized.allocator r.1)) as (H1 & H2 & H3).
    { cbv zeta. unfold DynamicSized.shrinkToFit.
      destruct (capacity cont >? size cont); [|done].
      destruct (reallocateAndCopyFor_delivers ok s cont (size cont)
                  Halloc Hdealloc Hok ltac:(lia)) as (-> & -> & Hok').
      split; [lia|]. split; [lia|done]. }
    destruct (DynamicSized.shrinkToFit s cont) as [s1 c1].
    by apply IH.
  - inversion Hreq as [|? ? [Hn Hw] _]; subst.
    destruct (Hresize n placeDefault Hn Hw) as (H1 & H2 & H3).
    unfold DynamicSized.resize.
    destruct (DynamicSized.resizeWithInserter bits s cont n placeDefault)
      as [s1 c1].
    by apply IH.
  - inversion Hreq as [|? ? [Hn Hw] _]; subst.
    destruct (Hresize n (placeValue ref) Hn Hw) as (H1 & H2 & H3).
    unfold DynamicSized.resizeWith.
    destruct (DynamicSized.resizeWithInserter bits s cont n (placeValue ref))
      as [s1 c1].
    by apply IH.
Qed.

(** X11: [cleanup] clears the container and hands its buffer to the allocator,
    but writes nothing to the proxy: data and capacity are as [clear()]
    left them.  A [reserveExactly] beyond that capacity after a [cleanup]
    therefore takes the released buffer for the container's own and hands
    it to the allocator a second time. *)
Theorem cleanup_keeps_the_released_buffer (clear : Cont T -> Cont T)
    (s : DynamicSized.t A) (cont : Cont T) (len : Z) :
  data (clear cont) <> 0 ->
  0 <= capacity (clear cont) < len ->
  let r := DynamicSized.cleanup clear s cont in
  let released :=
    Allocator.deallocate (DynamicSized.allocator s)
      (data (clear cont)) (capacity (clear cont)) in
  r.2 = clear cont /\
  DynamicSized.allocator r.1 = released /\
  DynamicSized.allocator (DynamicSized.reserveExactly r.1 r.2 len).1
  = Allocator.deallocate (Allocator.allocate released len).2
      (data (clear cont)) (capacity (clear cont)).
Proof.
  intros Hdata Hcap. cbv zeta. split; [done|]. split; [done|].
  unfold DynamicSized.cleanup. cbn [fst snd].
  unfold DynamicSized.reserveExactly.
  assert ((len >? capacity (clear cont)) = true) as -> by lia.
  unfold DynamicSized.reallocateAndCopyFor. rewrite allocate_closed_form.
  assert ((len >? 0) = true) as -> by lia. cbv zeta.
  assert ((data (clear cont) =? 0) = false) as -> by lia.
  done.
Qed.

End Dynamic.

(** Two elements in a buffer of four: growing to four and shrinking back
    to two constructs and destroys the elements at 4098 and 4099. *)
Lemma grow_then_shrink_back_witness :
  StaticSized.resize Samples.fixed4
    (StaticSized.resize Samples.fixed4 Samples.boundTo4 4) 2
  = MkCont (Proxy.Build 4096 4 2)
      [PlaceDefaultTo 4098; PlaceDefaultTo 4099; Destruct 4098 4100].
Proof.
  pose proof (grow_then_shrink_back 64 Samples.dynamic Samples.fixed4
                Samples.boundTo4 4 placeDefault) as H.
  destruct H as [_ Hstatic].
  - reflexivity.
  - unfold StaticSized.resize.
    change 2 with (size Samples.boundTo4) at 1.
    rewrite Hstatic.
    + reflexivity.
    + split; reflexivity.
    + vm_compute. discriminate.
Defined.

(** A full container of sixteen elements grows to exactly twenty. *)
Lemma reserveExactly_moves_the_elements_witness :
  proxy (DynamicSized.reserveExactly Samples.dynamic Samples.full16 20).2
    = Proxy.Build 8192 20 16 /\
  log (DynamicSized.reserveExactly Samples.dynamic Samples.full16 20).2
    = [MoveWithPlacement 4096 8192 16; Destruct 4096 4112].
Proof.
  pose proof (reserveExactly_moves_the_elements Samples.dynamic
                Samples.full16 20) as H.
  destruct H as [_ Hgrow].
  - vm_compute. split; discriminate.
  - destruct Hgrow as (Hproxy & _ & Hmove).
    + reflexivity.
    + vm_compute. discriminate.
    + split; [exact Hproxy|].
      destruct Hmove as [Hlog _]; [vm_compute; discriminate|exact Hlog].
Defined.

(** An allocator that answers with the null pointer: the full container of
    sixteen elements ends up without storage. *)
Lemma failed_allocation_loses_the_elements_witness :
  proxy (DynamicSized.reserveExactly
           (DynamicSized.Build (Allocator.MkBump 0) 512) Samples.full16 17).2
    = Proxy.Build 0 0 16 /\
  proxy (DynamicSized.resize 64
           (DynamicSized.Build (Allocator.MkBump 0) 512) Samples.full16 17).2
    = Proxy.Build 0 0 17.
Proof.
  pose proof (failed_allocation_loses_the_elements 64
                (DynamicSized.Build (Allocator.MkBump 0) 512)
                Samples.full16 17 placeDefault) as H.
  destruct H as [Hexact Hresize].
  - lia.
  - vm_compute. split; discriminate.
  - vm_compute. discriminate.
  - reflexivity.
  - split.
    + apply Hexact. reflexivity.
    + apply Hresize; reflexivity.
Defined.

(** Three elements in a buffer of sixteen: the buffer shrinks to three. *)
Lemma shrinkToFit_law_witness :
  proxy (DynamicSized.shrinkToFit Samples.dynamic
           (MkCont (Proxy.Build 4096 16 3) ([] : list (Event unit)))).2
    = Proxy.Build 8192 3 3.
Proof.
  pose proof (shrinkToFit_law Samples.dynamic
                (MkCont (Proxy.Build 4096 16 3) ([] : list (Event unit))))
    as H.
  destruct H as (_ & _ & Hshrink & _).
  - vm_compute. discriminate.
  - destruct Hshrink as [Hproxy _].
    + vm_compute. split; reflexivity.
    + vm_compute. discriminate.
    + vm_compute. discriminate.
    + exact Hproxy.
Defined.

(** Seventeen rounds to twenty-four; the largest 64-bit length rounds
    to zero. *)
Lemma getRoundedLength_law_witness :
  (17 <= DynamicSized.getRoundedLength 64 17 < 17 + 8 /\
   DynamicSized.getRoundedLength 64 17 mod 8 = 0) /\
  DynamicSized.getRoundedLength 64 (2 ^ 64 - 1) = 0.
Proof.
  split.
  - pose proof (getRoundedLength_law 64 17) as H.
    destruct H as (Hround & _).
    + lia.
    + vm_compute. split; [discriminate|reflexivity].
    + apply Hround. reflexivity.
  - pose proof (getRoundedLength_law 64 (2 ^ 64 - 1)) as H.
    destruct H as (_ & Hwrap & _).
    + lia.
    + vm_compute. split; [discriminate|reflexivity].
    + apply Hwrap. vm_compute. discriminate.
Defined.

(** A run on the bump allocator, which delivers as long as its next
    address is not null. *)
Lemma dynamic_requests_keep_size_within_capacity_witness :
  0 <= size (DynamicSized.serveAll 64 Samples.dynamic Samples.unallocated
               [Reserve 10; Resize 20; ShrinkToFit; ResizeWith 3 tt;
                ReserveExactly 100]).2
    <= capacity (DynamicSized.serveAll 64 Samples.dynamic Samples.unallocated
                   [Reserve 10; Resize 20; ShrinkToFit; ResizeWith 3 tt;
                    ReserveExactly 100]).2.
Proof.
  apply (dynamic_requests_keep_size_within_capacity
           (fun a => 0 < Allocator.next a) 64 Samples.dynamic
           Samples.unallocated
           [Reserve 10; Resize 20; ShrinkToFit; ResizeWith 3 tt;
            ReserveExactly 100]).
  - lia.
  - intros a n Ha Hn. simpl. lia.
  - intros a ptr n Ha. exact Ha.
  - reflexivity.
  - vm_compute. split; discriminate.
  - reflexivity.
  - repeat constructor; vm_compute; congruence.
Defined.

(** A [clear()] that sets the size to zero: the buffer at 4096 goes to the
    allocator at [cleanup] and, after [reserveExactly(20)], again. *)
Lemma cleanup_keeps_the_released_buffer_witness :
  (DynamicSized.cleanup (fun c => setSize c 0) Samples.dynamic
     Samples.full16).2
    = setSize Samples.full16 0 /\
  data (DynamicSized.cleanup (fun c => setSize c 0) Samples.dynamic
          Samples.full16).2 = 4096.
Proof.
  pose proof (cleanup_keeps_the_released_buffer (fun c => setSize c 0)
                Samples.dynamic Samples.full16 20) as H.
  destruct H as (Hcont & _ & _).
  - vm_compute. discriminate.
  - vm_compute. split; [discriminate|reflexivity].
  - split; [exact Hcont|reflexivity].
Defined.

End DynamicSizedProperties.

(** ** [AVectorBase::swap]: the order of the two vectors *)

Module AVectorBaseProperties.

(** X12: [a.swap(b)] and [b.swap(a)] leave the same store, whether the two are
    distinct vectors or one and the same; swapping a vector with itself
    leaves the store as it is. *)
Theorem swap_is_symmetric (this other : Z) (st : gmap Z Proxy.t) :
  AVectorBase.swap this other st = AVectorBase.swap other this st /\
  (is_Some (st !! this) -> AVectorBase.swap this this st = Some st).
Proof.
  split.
  - destruct (st !! this) as [p|] eqn:Hp, (st !! other) as [q|] eqn:Hq.
    + rewrite (AVectorBaseFacts.swap_closed_form _ _ _ _ _ Hp Hq).
      rewrite (AVectorBaseFacts.swap_closed_form _ _ _ _ _ Hq Hp).
      f_equal. destruct (decide (this = other)) as [->|Hne].
      * rewrite Hp in Hq. by inversion Hq.
      * by apply insert_insert_ne.
    + unfold AVectorBase.swap, AVectorBase.copyField.
      by rewrite Hp, Hq.
    + unfold AVectorBase.swap, AVectorBase.copyField.
      by rewrite Hp, Hq.
    + unfold AVectorBase.swap, AVectorBase.copyField.
      by rewrite Hp, Hq.
  - intros [p Hp].
    rewrite (AVectorBaseFacts.swap_closed_form _ _ _ _ _ Hp Hp).
    f_equal. rewrite insert_insert_eq. by apply insert_id.
Qed.

End AVectorBaseProperties.

(** ** FIFO iterators: stepping forth and back *)

Module FifoProperties.

(** [n] times [operator++]. *)
Lemma incr_iter (n : nat) (a : Fifo.AFifoIterator) :
  Nat.iter n Fifo.incr a
  = if n is O then a
    else Fifo.MkAFifoIterator (Fifo.uint32 (Fifo.ix a + Z.of_nat n))
           (Fifo.fifo a).
Proof.
  induction n as [|n IH]; [done|].
  rewrite Nat.iter_succ, IH. unfold Fifo.incr, Fifo.uint32.
  destruct n as [|n]; cbn [Fifo.ix Fifo.fifo].
  - done.
  - f_equal. rewrite Zplus_mod_idemp_l. f_equal. lia.
Qed.

Lemma decr_incr (a : Fifo.AFifoIterator) :
  0 <= Fifo.ix a < 2 ^ 32 -> Fifo.decr (Fifo.incr a) = a.
Proof.
  intros Hix. destruct a as [i f]. unfold Fifo.incr, Fifo.decr. simpl in *.
  f_equal. unfold Fifo.uint32. rewrite Zminus_mod_idemp_l.
  replace (i + 1 - 1) with i by lia. apply Z.mod_small. lia.
Qed.

(** X13: On an iterator whose index is a 32-bit value, [++] and [--] undo each
    other, also across the wrap-around between [2^32 - 1] and [0]; an
    iterator never compares equal to its successor or its predecessor; and
    the post-increment hands back the iterator as it was while the iterator
    itself moves on. *)
Theorem increment_and_decrement_are_inverse (a : Fifo.AFifoIterator) :
  0 <= Fifo.ix a < 2 ^ 32 ->
  Fifo.decr (Fifo.incr a) = a /\
  Fifo.incr (Fifo.decr a) = a /\
  Fifo.eq a (Fifo.incr a) = false /\
  Fifo.ne a (Fifo.decr a) = true /\
  Fifo.postIncr a = (a, Fifo.incr a) /\
  Fifo.decr (Fifo.postIncr a).2 = (Fifo.postIncr a).1.
Proof.
  intros Hix. destruct a as [i f]. simpl in Hix.
  pose proof (decr_incr (Fifo.MkAFifoIterator i f) Hix) as Hdi.
  unfold Fifo.incr, Fifo.decr in Hdi. simpl in Hdi.
  assert (Fifo.uint32 (Fifo.uint32 (i - 1) + 1) = i) as Hid.
  { unfold Fifo.uint32. rewrite Zplus_mod_idemp_l.
    replace (i - 1 + 1) with i by lia. apply Z.mod_small. lia. }
  assert (Fifo.uint32 (i + 1) <> i) as Hnext.
  { unfold Fifo.uint32. destruct (decide (i = 2 ^ 32 - 1)) as [->|Hne].
    - vm_compute. discriminate.
    - rewrite Z.mod_small by lia. lia. }
  assert (Fifo.uint32 (i - 1) <> i) as Hprev.
  { unfold Fifo.uint32. destruct (decide (i = 0)) as [->|Hne].
    - vm_compute. discriminate.
    - rewrite Z.mod_small by lia. lia. }
  unfold Fifo.postIncr, Fifo.ne, Fifo.eq, Fifo.incr, Fifo.decr. simpl.
  rewrite Hdi, Hid.
  repeat split; try done.
  - apply andb_false_iff. left. apply Z.eqb_neq. congruence.
  - apply negb_true_iff, andb_false_iff. left. apply Z.eqb_neq. congruence.
Qed.

(** X14: [n] increments move the index by [n] modulo [2^32] and leave the
    translator alone, so that [2^32] of them bring an iterator back to where
    it was; [n] decrements after [n] increments do the same. *)
Theorem increments_add_up (n : nat) (a : Fifo.AFifoIterator) :
  0 <= Fifo.ix a < 2 ^ 32 ->
  Nat.iter n Fifo.incr a
    = Fifo.MkAFifoIterator ((Fifo.ix a + Z.of_nat n) mod 2 ^ 32)
        (Fifo.fifo a) /\
  (Z.of_nat n mod 2 ^ 32 = 0 -> Nat.iter n Fifo.incr a = a) /\
  Nat.iter n Fifo.decr (Nat.iter n Fifo.incr a) = a.
Proof.
  intros Hix.
  assert (Nat.iter n Fifo.incr a
          = Fifo.MkAFifoIterator ((Fifo.ix a + Z.of_nat n) mod 2 ^ 32)
              (Fifo.fifo a)) as Hiter.
  { rewrite incr_iter. destruct n as [|n]; [|done].
    destruct a as [i f]. simpl in *. f_equal.
    rewrite Z.add_0_r. symmetry. apply Z.mod_small. lia. }
  split; [done|]. split.
  - intros Hfull. rewrite Hiter. destruct a as [i f]. simpl in *. f_equal.
    rewrite <- Zplus_mod_idemp_r, Hfull, Z.add_0_r. apply Z.mod_small. lia.
  - clear Hiter. revert a Hix. induction n as [|n IH]; intros a Hix; [done|].
    rewrite Nat.iter_succ_r, Nat.iter_succ.
    assert (0 <= Fifo.ix (Nat.iter n Fifo.incr a) < 2 ^ 32) as Hrange.
    { rewrite incr_iter. destruct n; [done|]. simpl.
      apply Z.mod_pos_bound. lia. }
    rewrite (decr_incr _ Hrange). by apply IH.
Qed.

(** At the last 32-bit index, [++] wraps around to [0] and [--] comes
    back. *)
Lemma increment_and_decrement_are_inverse_witness :
  Fifo.incr (Fifo.MkAFifoIterator (2 ^ 32 - 1) 7) = Fifo.MkAFifoIterator 0 7 /\
  Fifo.decr (Fifo.incr (Fifo.MkAFifoIterator (2 ^ 32 - 1) 7))
    = Fifo.MkAFifoIterator (2 ^ 32 - 1) 7.
Proof.
  split; [reflexivity|].
  apply (increment_and_decrement_are_inverse
           (Fifo.MkAFifoIterator (2 ^ 32 - 1) 7)).
  vm_compute. split; [discriminate|reflexivity].
Defined.

(** Five steps from the last but one 32-bit index end at index [3]. *)
Lemma increments_add_up_witness :
  Nat.iter 5 Fifo.incr (Fifo.MkAFifoIterator (2 ^ 32 - 2) 7)
    = Fifo.MkAFifoIterator 3 7.
Proof.
  pose proof (increments_add_up 5 (Fifo.MkAFifoIterator (2 ^ 32 - 2) 7)) as H.
  destruct H as [Hiter _].
  - vm_compute. split; [discriminate|reflexivity].
  - exact Hiter.
Defined.

End FifoProperties.

(** ** [Map]: the map as a finite function *)

Module MapProperties.

(** Lists around one of their items. *)
Lemma alter_middle {X : Type} (f : X -> X) (l : list X) (i : nat) (x : X) :
  l !! i = Some x -> alter f i l = take i l ++ f x :: drop (S i) l.
Proof.
  revert i. induction l as [|y l IH]; intros [|i] H; simplify_eq/=; [done|].
  f_equal. by apply IH.
Qed.

Section Laws.
Context {K E : Type} {Cmp : Comparator K} {Laws : StrictWeak K}.

(** The search the functions of [Map.h] call, as they rely on it, over keys
    of which only identical ones compare equal. *)
Variable fsp : list (Map.MapItem K E) -> K -> Z * bool.
Hypothesis same : forall a b : K, keyEqual a b = true -> a = b.
Hypothesis search : Map.searches fsp.

(** The nodes the allocator has for the map. *)
Variable N : nat.

Lemma item_eta (x : Map.MapItem K E) :
  Map.Item (Map.getKey x) (Map.getElement x) = x.
Proof. by destruct x. Qed.

Lemma itemAt_nat (m : list (Map.MapItem K E)) (i : nat) :
  Sorted.itemAt m (Z.of_nat i) = m !! i.
Proof.
  unfold Sorted.itemAt.
  assert ((0 <=? Z.of_nat i) = true) as -> by (apply Z.leb_le; lia).
  by rewrite Nat2Z.id.
Qed.

Lemma itemAt_end (m : list (Map.MapItem K E)) :
  Sorted.itemAt m (Map.cend m) = None.
Proof.
  unfold Map.cend, Sorted.cend. rewrite itemAt_nat.
  apply lookup_ge_None. lia.
Qed.

Lemma key_elem (m : list (Map.MapItem K E)) (x : Map.MapItem K E) :
  x ∈ m -> Map.getKey x ∈ Map.keys m.
Proof. intros Hx. unfold Map.keys, Sorted.keys. by apply list_elem_of_fmap_2. Qed.

Lemma sorted_keys_NoDup (m : list (Map.MapItem K E)) :
  Sorted.sortedUnique Map.getKey m -> NoDup (Map.keys m).
Proof using Laws. apply SortedFacts.sorted_NoDup. Qed.

(** A key is stored with one item only. *)
Lemma same_key_same_item (m : list (Map.MapItem K E))
    (x y : Map.MapItem K E) :
  NoDup (Map.keys m) -> x ∈ m -> y ∈ m ->
  Map.getKey x = Map.getKey y -> x = y.
Proof.
  intros Hnd [i Hi]%list_elem_of_lookup [j Hj]%list_elem_of_lookup Hkey.
  assert (Map.keys m !! i = Some (Map.getKey x)) as Hki
    by (unfold Map.keys; by rewrite SortedFacts.keys_lookup, Hi).
  assert (Map.keys m !! j = Some (Map.getKey x)) as Hkj
    by (unfold Map.keys; by rewrite SortedFacts.keys_lookup, Hj, Hkey).
  pose proof (NoDup_lookup _ _ _ _ Hnd Hki Hkj). subst j. congruence.
Qed.

Lemma stored_elem (m : list (Map.MapItem K E)) (k : K) :
  Sorted.stored Map.getKey m k <-> k ∈ Map.keys m.
Proof using Laws same.
  unfold Sorted.stored, Map.keys. rewrite Exists_exists. split.
  - intros (x & Hx & Heq). by rewrite <- (same _ _ Heq).
  - intros Hk. exists k. split; [done|]. apply SortedFacts.keyEqual_reflexive.
Qed.

(** The flag of the search says whether the key is stored. *)
Lemma flag_stored (m : list (Map.MapItem K E)) (k : K) :
  Sorted.sortedUnique Map.getKey m ->
  ((fsp m k).2 = true <-> k ∈ Map.keys m).
Proof using search.
  intros Hs. destruct (search m k Hs) as [[Hmatch Hnone] _]. split.
  - intros Hf. eapply MapFacts.keyAt_elem. by apply Hmatch.
  - intros Hk. destruct (fsp m k).2; [done|]. by destruct Hnone.
Qed.

(** On a match, the item one step back has the key. *)
Lemma matched (m : list (Map.MapItem K E)) (k : K) :
  Sorted.sortedUnique Map.getKey m -> (fsp m k).2 = true ->
  exists i item,
    (fsp m k).1 - 1 = Z.of_nat i /\ m !! i = Some item /\
    Map.getKey item = k.
Proof using search.
  intros Hs Hf. destruct (search m k Hs) as [[Hmatch _] _].
  specialize (Hmatch Hf).
  apply SortedFacts.keyAt_Some in Hmatch as [Hrange Hkey].
  rewrite SortedFacts.keys_lookup in Hkey.
  destruct (m !! Z.to_nat ((fsp m k).1 - 1)) as [item|] eqn:Hitem; [|done].
  exists (Z.to_nat ((fsp m k).1 - 1)), item.
  split; [lia|]. split; [done|]. by inversion Hkey.
Qed.

(** Without a match, the position is where the key belongs. *)
Lemma unmatched (m : list (Map.MapItem K E)) (k : K) :
  Sorted.sortedUnique Map.getKey m -> (fsp m k).2 = false ->
  exists p,
    (fsp m k).1 = Z.of_nat p /\ (p <= length m)%nat /\
    Sorted.isLowerBound Map.getKey m k p /\ k ∉ Map.keys m.
Proof using search.
  intros Hs Hf. destruct (search m k Hs) as [[_ Hnone] Hpos].
  destruct (Hpos Hf) as [H0 Hlb].
  exists (Z.to_nat (fsp m k).1). split; [lia|].
  split; [apply Hlb|]. split; [done|]. by apply Hnone.
Qed.

(** [find(k)->getElement()] reads the element stored with the key. *)
Lemma elementOf_Some (m : list (Map.MapItem K E)) (k : K) (e : E) :
  Sorted.sortedUnique Map.getKey m ->
  (Map.elementOf fsp m k = Some e <-> Map.Item k e ∈ m).
Proof using Laws search.
  intros Hs. unfold Map.elementOf, Map.find.
  destruct (fsp m k).2 eqn:Hf.
  - destruct (matched m k Hs Hf) as (i & item & -> & Hi & Hkey).
    rewrite itemAt_nat, Hi. simpl. split.
    + intros [= <-]. rewrite <- Hkey, item_eta.
      by eapply list_elem_of_lookup_2.
    + intros Hin. f_equal.
      assert (item = Map.Item k e) as ->; [|done].
      apply (same_key_same_item m); try done.
      * by apply sorted_keys_NoDup.
      * by eapply list_elem_of_lookup_2.
  - rewrite itemAt_end. simpl. split; [done|].
    intros Hin. destruct (unmatched m k Hs Hf) as (_ & _ & _ & _ & Hout).
    destruct Hout. by apply (key_elem m (Map.Item k e)).
Qed.

Lemma elementOf_None (m : list (Map.MapItem K E)) (k : K) :
  Sorted.sortedUnique Map.getKey m ->
  (Map.elementOf fsp m k = None <-> k ∉ Map.keys m).
Proof using Laws search.
  intros Hs. split.
  - intros Hnone Hk. unfold Map.keys, Sorted.keys in Hk.
    apply list_elem_of_fmap in Hk as (x & -> & Hx).
    rewrite <- (item_eta x) in Hx. apply elementOf_Some in Hx; [|done].
    simpl in Hx. congruence.
  - intros Hout. destruct (Map.elementOf fsp m k) as [e|] eqn:He; [|done].
    apply elementOf_Some in He; [|done].
    destruct Hout. by apply (key_elem m (Map.Item k e)).
Qed.

(** Two maps that store the same items for a key answer alike for it. *)
Lemma elementOf_ext (m1 m2 : list (Map.MapItem K E)) (k : K) :
  Sorted.sortedUnique Map.getKey m1 -> Sorted.sortedUnique Map.getKey m2 ->
  (forall e, Map.Item k e ∈ m1 <-> Map.Item k e ∈ m2) ->
  Map.elementOf fsp m1 k = Map.elementOf fsp m2 k.
Proof using Laws search.
  intros Hs1 Hs2 Hiff. apply option_eq. intros e.
  by rewrite !elementOf_Some, Hiff.
Qed.

(** The sequence after [insertTo] at a position found without a match. *)
Lemma inserted (m : list (Map.MapItem K E)) (k : K) (e : E) :
  Sorted.sortedUnique Map.getKey m -> (fsp m k).2 = false ->
  exists p,
    (fsp m k).1 = Z.of_nat p /\ (p <= length m)%nat /\
    (k ∉ Map.keys m) /\
    Sorted.insertTo m (fsp m k).1 (Map.Item k e)
    = (take p m ++ Map.Item k e :: drop p m, Z.of_nat p) /\
    Sorted.sortedUnique Map.getKey (take p m ++ Map.Item k e :: drop p m).
Proof using Laws same search.
  intros Hs Hf. destruct (unmatched m k Hs Hf) as (p & Hp & Hlen & Hlb & Hout).
  exists p. split; [done|]. split; [done|]. split; [done|].
  rewrite Hp. unfold Sorted.insertTo. rewrite Nat2Z.id. split; [done|].
  pose proof (SortedFacts.insertTo_sorted Map.getKey m p (Map.Item k e) Hs Hlb)
    as Hsorted.
  unfold Sorted.insertTo in Hsorted. rewrite Nat2Z.id in Hsorted.
  apply Hsorted. simpl. by rewrite stored_elem.
Qed.

Lemma elem_inserted (m : list (Map.MapItem K E)) (p : nat)
    (item x : Map.MapItem K E) :
  x ∈ take p m ++ item :: drop p m <-> x = item \/ x ∈ m.
Proof.
  rewrite <- (take_drop p m) at 3.
  rewrite !elem_of_app, elem_of_cons. tauto.
Qed.

(** The sequence after [--found.first] and [setElement] on a match. *)
Lemma assigned (m : list (Map.MapItem K E)) (k : K) (e : E) :
  Sorted.sortedUnique Map.getKey m -> (fsp m k).2 = true ->
  exists i item,
    (fsp m k).1 - 1 = Z.of_nat i /\ m !! i = Some item /\
    Map.getKey item = k /\
    Map.setElementAt m ((fsp m k).1 - 1) e
    = take i m ++ Map.Item k e :: drop (S i) m /\
    Map.keys (Map.setElementAt m ((fsp m k).1 - 1) e) = Map.keys m.
Proof using search.
  intros Hs Hf. destruct (matched m k Hs Hf) as (i & item & Hp & Hi & Hkey).
  exists i, item. split; [done|]. split; [done|]. split; [done|].
  rewrite Hp. unfold Map.setElementAt.
  assert ((0 <=? Z.of_nat i) = true) as -> by (apply Z.leb_le; lia).
  rewrite Nat2Z.id. split.
  - rewrite (alter_middle _ _ _ _ Hi). unfold Map.setElement. by rewrite Hkey.
  - unfold Map.keys, Sorted.keys.
    rewrite (list_fmap_alter _ _ (fun k => k)) by (by apply Forall_true).
    by apply list_alter_id.
Qed.

Lemma elem_assigned (m : list (Map.MapItem K E)) (i : nat)
    (item y x : Map.MapItem K E) :
  m !! i = Some item -> Map.getKey x <> Map.getKey item ->
  Map.getKey x <> Map.getKey y ->
  (x ∈ take i m ++ y :: drop (S i) m <-> x ∈ m).
Proof.
  intros Hi Hx Hy. rewrite <- (take_drop_middle m i item Hi) at 3.
  rewrite !elem_of_app, !elem_of_cons.
  split; intros [?|[->|?]]; auto; congruence.
Qed.

(** The sequence after [erase(--found.first)] on a match. *)
Lemma elem_erased (m : list (Map.MapItem K E)) (i : nat)
    (item x : Map.MapItem K E) :
  NoDup (Map.keys m) -> m !! i = Some item ->
  (x ∈ delete i m <-> x ∈ m /\ Map.getKey x <> Map.getKey item).
Proof.
  intros Hnd Hi. rewrite delete_take_drop.
  rewrite <- (take_drop_middle m i item Hi) in Hnd.
  rewrite <- (take_drop_middle m i item Hi) at 3.
  unfold Map.keys, Sorted.keys in Hnd.
  rewrite fmap_app, fmap_cons in Hnd.
  apply NoDup_app in Hnd as (_ & Hcross & [Hpost _]%NoDup_cons).
  rewrite !elem_of_app, elem_of_cons. split.
  - intros [Hpre|Hx].
    + split; [auto|]. intros Hkey.
      apply (Hcross (Map.getKey x)); [by apply list_elem_of_fmap_2|].
      rewrite Hkey. apply elem_of_cons. by left.
    + split; [auto|]. intros Hkey. apply Hpost. rewrite <- Hkey.
      by apply list_elem_of_fmap_2.
  - intros [[?|[->|?]] Hkey]; auto. done.
Qed.

Lemma sorted_erased (m : list (Map.MapItem K E)) (i : nat) :
  Sorted.sortedUnique Map.getKey m ->
  Sorted.sortedUnique Map.getKey (delete i m).
Proof.
  unfold Sorted.sortedUnique, Sorted.keys. intros Hs.
  rewrite delete_take_drop, fmap_app.
  rewrite <- (take_drop i m), fmap_app in Hs.
  apply StronglySorted_app in Hs as (Hcross & Hpre & Hpost).
  destruct (drop i m) as [|x rest] eqn:Hdrop.
  - rewrite (drop_ge m (S i)).
    + simpl. by rewrite app_nil_r.
    + pose proof (f_equal length Hdrop) as Hlen.
      rewrite length_drop in Hlen. simpl in Hlen. lia.
  - assert (drop (S i) m = rest) as ->.
    { replace (drop (S i) m) with (drop 1 (drop i m))
        by (rewrite drop_drop; f_equal; lia).
      by rewrite Hdrop. }
    rewrite fmap_cons in Hpost, Hcross.
    apply StronglySorted_cons in Hpost as [_ Hrest].
    apply StronglySorted_app. split; [|done].
    intros x1 x2 H1 H2. apply Hcross; [done|]. apply elem_of_cons. by right.
Qed.

(** X15: [find(k)] hands back the iterator of the item stored with the key [k],
    so that [find(k)->getElement()] reads exactly the element stored with
    [k]; it hands back [end()] exactly when no item has the key. *)
Theorem find_reads_the_stored_element (m : list (Map.MapItem K E)) (k : K) :
  Sorted.sortedUnique Map.getKey m ->
  (forall e, Map.elementOf fsp m k = Some e <-> Map.Item k e ∈ m) /\
  (Map.find fsp m k = Map.cend m <-> k ∉ Map.keys m) /\
  (k ∈ Map.keys m ->
     0 <= Map.find fsp m k < Map.cend m /\
     Map.keyAt m (Map.find fsp m k) = Some k).
Proof using Laws search.
  intros Hs. split; [intros e; by apply elementOf_Some|].
  assert (k ∈ Map.keys m ->
          0 <= Map.find fsp m k < Map.cend m /\
          Map.keyAt m (Map.find fsp m k) = Some k) as Hin.
  { intros Hk. apply flag_stored in Hk; [|done].
    destruct (matched m k Hs Hk) as (i & item & Hp & Hi & Hkey).
    unfold Map.find. rewrite Hk, Hp.
    unfold Map.keyAt, Sorted.keyAt, Map.cend, Sorted.cend.
    rewrite itemAt_nat, Hi. simpl. rewrite Hkey.
    apply lookup_lt_Some in Hi. split; [lia|done]. }
  split; [|done]. split.
  - intros Hend Hk. destruct (Hin Hk) as [Hrange _]. lia.
  - intros Hout. unfold Map.find.
    destruct (fsp m k).2 eqn:Hf; [|done].
    apply flag_stored in Hf; done.
Qed.

(** [emplaceTo] at a position found without a match: with a node left the
    item goes where its key belongs, with none left nothing happens. *)
Lemma emplaced (m : list (Map.MapItem K E)) (k : K) (e : E) :
  Sorted.sortedUnique Map.getKey m -> (fsp m k).2 = false ->
  (k ∉ Map.keys m) /\
  ((length m < N)%nat ->
     exists p,
       (p <= length m)%nat /\ Sorted.isLowerBound Map.getKey m k p /\
       Map.emplaceTo N m (fsp m k).1 (Map.Item k e)
       = (take p m ++ Map.Item k e :: drop p m, Z.of_nat p) /\
       Sorted.sortedUnique Map.getKey
         (take p m ++ Map.Item k e :: drop p m) /\
       (take p m ++ Map.Item k e :: drop p m) !! p = Some (Map.Item k e) /\
       length (take p m ++ Map.Item k e :: drop p m) = S (length m)) /\
  ((N <= length m)%nat ->
     Map.emplaceTo N m (fsp m k).1 (Map.Item k e) = (m, Map.cend m)).
Proof using Laws same search.
  intros Hs Hf.
  destruct (inserted m k e Hs Hf) as (p & Hp & Hlen & Hout & Hins & Hs').
  destruct (unmatched m k Hs Hf) as (p' & Hp' & _ & Hlb & _).
  assert (p' = p) as -> by lia.
  split; [done|]. unfold Map.emplaceTo. split.
  - intros Hroom. assert ((length m <? N)%nat = true) as ->
      by (by apply Nat.ltb_lt).
    exists p. split; [done|]. split; [done|]. split; [done|].
    split; [done|]. split.
    + rewrite lookup_app_r by (rewrite length_take; lia).
      rewrite length_take_le by lia. by rewrite Nat.sub_diag.
    + rewrite length_app, length_take_le by lia. simpl.
      rewrite length_drop. lia.
  - intros Hfull. by assert ((length m <? N)%nat = false) as ->
      by (by apply Nat.ltb_ge).
Qed.

(** What the loop of [copyElementsFrom] needs of [insertOrAssign]. *)
Lemma insertOrAssign_elements (m : list (Map.MapItem K E)) (k : K) (e : E) :
  Sorted.sortedUnique Map.getKey m ->
  Sorted.sortedUnique Map.getKey (Map.insertOrAssign fsp N m k e).1 /\
  (forall k', k' <> k ->
     Map.elementOf fsp (Map.insertOrAssign fsp N m k e).1 k'
     = Map.elementOf fsp m k') /\
  (k ∈ Map.keys m \/ (length m < N)%nat ->
     Map.elementOf fsp (Map.insertOrAssign fsp N m k e).1 k = Some e) /\
  (length (Map.insertOrAssign fsp N m k e).1 <= S (length m))%nat.
Proof using Laws same search.
  intros Hs. unfold Map.insertOrAssign.
  destruct (fsp m k).2 eqn:Hf; cbn [negb].
  - destruct (assigned m k e Hs Hf)
      as (i & item & Hp & Hi & Hkey & Hm' & Hkeys).
    cbn [fst].
    assert (Sorted.sortedUnique Map.getKey
              (Map.setElementAt m ((fsp m k).1 - 1) e)) as Hs'.
    { unfold Sorted.sortedUnique. unfold Map.keys in Hkeys.
      by rewrite Hkeys. }
    split; [done|]. split; [|split].
    + intros k' Hne. apply elementOf_ext; [done|done|]. intros e'.
      rewrite Hm'. apply (elem_assigned m i item); [done| |]; simpl; congruence.
    + intros _. apply elementOf_Some; [done|]. rewrite Hm'.
      apply elem_of_app. right. apply elem_of_cons. by left.
    + pose proof (f_equal length Hkeys) as Hlen.
      unfold Map.keys in Hlen. rewrite !SortedFacts.keys_length in Hlen. lia.
  - destruct (emplaced m k e Hs Hf) as (Hout & Hroom & Hfull).
    destruct (Nat.lt_ge_cases (length m) N) as [Hlt|Hge].
    + destruct (Hroom Hlt) as (p & Hlen & _ & -> & Hs' & Hat & Hlen').
      cbn [fst]. split; [done|]. split; [|split].
      * intros k' Hne. apply elementOf_ext; [done|done|]. intros e'.
        rewrite elem_inserted. split; [|auto]. intros [[=]|?]; done.
      * intros _. apply elementOf_Some; [done|].
        by apply (list_elem_of_lookup_2 _ p).
      * lia.
    + rewrite (Hfull Hge). cbn [fst]. split; [done|]. split; [done|].
      split; [|lia]. intros [Hin|Hlt]; [done|lia].
Qed.

(** X16: [insertOrAssign(k, e)] keeps the keys strictly increasing and
    leaves every other key with the element it had.  A stored key gets the
    element [e], the flag is [false], the iterator is that of the item and
    the keys are as before, whether the allocator has a node left or not.
    A new key is stored with [e] when the allocator has a node left: the
    flag is [true], the iterator is that of the new item and the map is one
    item longer.  With no node left nothing is stored, and the function
    still hands back [true], with [end()]. *)
Theorem insertOrAssign_stores_the_element (m : list (Map.MapItem K E))
    (k : K) (e : E) :
  Sorted.sortedUnique Map.getKey m ->
  let r := Map.insertOrAssign fsp N m k e in
  Sorted.sortedUnique Map.getKey r.1 /\
  (forall k', k' <> k -> Map.elementOf fsp r.1 k' = Map.elementOf fsp m k') /\
  (k ∈ Map.keys m ->
     Map.elementOf fsp r.1 k = Some e /\
     Sorted.itemAt r.1 r.2.1 = Some (Map.Item k e) /\
     r.2.2 = false /\ Map.keys r.1 = Map.keys m) /\
  (k ∉ Map.keys m -> (length m < N)%nat ->
     Map.elementOf fsp r.1 k = Some e /\
     Sorted.itemAt r.1 r.2.1 = Some (Map.Item k e) /\
     r.2.2 = true /\ length r.1 = S (length m)) /\
  (k ∉ Map.keys m -> (N <= length m)%nat ->
     r = (m, (Map.cend m, true)) /\ Map.elementOf fsp r.1 k = None).
Proof using Laws same search.
  intros Hs. cbv zeta.
  destruct (insertOrAssign_elements m k e Hs) as (Hs' & Hframe & Hk & _).
  split; [done|]. split; [done|].
  unfold Map.insertOrAssign in *.
  destruct (fsp m k).2 eqn:Hf; cbn [negb] in *.
  - destruct (assigned m k e Hs Hf)
      as (i & item & Hp & Hi & Hkey & Hm' & Hkeys).
    cbn [fst snd] in *.
    assert (k ∈ Map.keys m) as Hin by (by apply flag_stored in Hf).
    split; [|split; intros Hout; done].
    intros _. split; [by apply Hk; left|]. split; [|done].
    rewrite Hm', Hp, itemAt_nat.
    apply lookup_lt_Some in Hi as Hlt.
    rewrite lookup_app_r by (rewrite length_take; lia).
    rewrite length_take_le by lia. by rewrite Nat.sub_diag.
  - destruct (emplaced m k e Hs Hf) as (Hout & Hroom & Hfull).
    split; [done|]. split.
    + intros _ Hlt. destruct (Hroom Hlt) as (p & _ & _ & Heq & _ & Hat & Hlen).
      rewrite Heq in *. cbn [fst snd] in *.
      split; [by apply Hk; right|]. by rewrite itemAt_nat.
    + intros _ Hge. rewrite (Hfull Hge). cbn [fst].
      split; [done|]. by apply elementOf_None.
Qed.

(** X17: [emplace(k, ...)] keeps the keys strictly increasing and leaves
    every other key with the element it had.  It stores the new element
    only for a key that is not stored yet, and only when the allocator has a
    node left: the flag is [true] and the iterator is that of the new item.
    With no node left nothing is stored, and the function still hands back
    [true], with [end()].  For a stored key it changes nothing, the element
    first stored stays, and the iterator it hands back with [false] is not
    the iterator of the item: that item is one step before it. *)
Theorem emplace_keeps_the_stored_element (m : list (Map.MapItem K E))
    (k : K) (e : E) :
  Sorted.sortedUnique Map.getKey m ->
  let r := Map.emplace fsp N m k e in
  Sorted.sortedUnique Map.getKey r.1 /\
  (forall k', k' <> k -> Map.elementOf fsp r.1 k' = Map.elementOf fsp m k') /\
  (k ∉ Map.keys m -> (length m < N)%nat ->
     r.2.2 = true /\
     Sorted.itemAt r.1 r.2.1 = Some (Map.Item k e) /\
     Map.elementOf fsp r.1 k = Some e /\
     length r.1 = S (length m)) /\
  (k ∉ Map.keys m -> (N <= length m)%nat ->
     r = (m, (Map.cend m, true)) /\ Map.elementOf fsp r.1 k = None) /\
  (k ∈ Map.keys m ->
     r.1 = m /\ r.2.2 = false /\
     Map.keyAt m r.2.1 <> Some k /\
     Map.keyAt m (r.2.1 - 1) = Some k).
Proof using Laws same search.
  intros Hs. cbv zeta. unfold Map.emplace.
  destruct (fsp m k).2 eqn:Hf; cbn [negb].
  - cbn [fst snd].
    assert (k ∈ Map.keys m) as Hin by (by apply flag_stored in Hf).
    split; [done|]. split; [done|].
    split; [intros Hout; done|]. split; [intros Hout; done|].
    intros _. split; [done|]. split; [done|].
    destruct (search m k Hs) as [[Hmatch _] _]. specialize (Hmatch Hf).
    split; [|done]. intros Hat.
    apply SortedFacts.keyAt_Some in Hmatch as [Hr1 Hk1].
    apply SortedFacts.keyAt_Some in Hat as [Hr2 Hk2].
    pose proof (NoDup_lookup _ _ _ _ (sorted_keys_NoDup m Hs) Hk1 Hk2).
    lia.
  - destruct (emplaced m k e Hs Hf) as (Hout & Hroom & Hfull).
    destruct (Nat.lt_ge_cases (length m) N) as [Hlt|Hge].
    + destruct (Hroom Hlt) as (p & _ & _ & -> & Hs' & Hat & Hlen).
      cbn [fst snd].
      split; [done|]. split; [|split; [|split]].
      * intros k' Hne. apply elementOf_ext; [done|done|]. intros e'.
        rewrite elem_inserted. split; [|auto]. intros [[=]|?]; done.
      * intros _ _. split; [done|]. split; [by rewrite itemAt_nat|].
        split; [|done]. apply elementOf_Some; [done|].
        by apply (list_elem_of_lookup_2 _ p).
      * intros _ Hfull'. lia.
      * intros Hin. done.
    + rewrite (Hfull Hge). cbn [fst snd].
      split; [done|]. split; [done|]. split; [intros _ Hlt; lia|].
      split; [|intros Hin; done].
      intros _ _. split; [done|]. by apply elementOf_None.
Qed.

(** X18: [getItem(k)] keeps the keys strictly increasing and leaves every
    other key with the element it had.  For a stored key it hands back the
    iterator of the item and leaves the map as it is.  For a key that is
    not stored it inserts an item with the default element when the
    allocator has a node left and hands back its iterator, the map being
    one item longer; with no node left it inserts nothing and hands back
    [end()].  [getElement(k)] and [operator[]] therefore read the stored
    element, or the default one for a key they could insert, and have
    nothing but [end()] to read from otherwise. *)
Theorem getItem_inserts_the_missing_key (defaultElement : E)
    (m : list (Map.MapItem K E)) (k : K) :
  Sorted.sortedUnique Map.getKey m ->
  let r := Map.getItem fsp N defaultElement m k in
  Sorted.sortedUnique Map.getKey r.1 /\
  (forall k', k' <> k -> Map.elementOf fsp r.1 k' = Map.elementOf fsp m k') /\
  (k ∈ Map.keys m -> r.1 = m /\ Map.keyAt m r.2 = Some k) /\
  (k ∉ Map.keys m -> (length m < N)%nat ->
     Sorted.itemAt r.1 r.2 = Some (Map.Item k defaultElement) /\
     length r.1 = S (length m)) /\
  (k ∉ Map.keys m -> (N <= length m)%nat ->
     r = (m, Map.cend m) /\
     Map.getElementOf fsp N defaultElement m k = (m, None)) /\
  (k ∈ Map.keys m \/ (length m < N)%nat ->
     Map.getElementOf fsp N defaultElement m k
     = (r.1, Some (default defaultElement (Map.elementOf fsp m k))) /\
     Map.elementOf fsp r.1 k
     = Some (default defaultElement (Map.elementOf fsp m k))).
Proof using Laws same search.
  intros Hs. cbv zeta. unfold Map.getElementOf, Map.getItem.
  destruct (fsp m k).2 eqn:Hf; cbn [negb fst snd].
  - destruct (matched m k Hs Hf) as (i & item & Hp & Hi & Hkey).
    assert (k ∈ Map.keys m) as Hin by (by apply flag_stored in Hf).
    assert (Map.elementOf fsp m k = Some (Map.getElement item)) as He.
    { apply elementOf_Some; [done|]. rewrite <- Hkey, item_eta.
      by eapply list_elem_of_lookup_2. }
    split; [done|]. split; [done|]. split; [|split; [|split]].
    + intros _. split; [done|].
      unfold Map.keyAt, Sorted.keyAt. rewrite Hp, itemAt_nat, Hi. simpl.
      by rewrite Hkey.
    + intros Hout. done.
    + intros Hout. done.
    + intros _. rewrite He, Hp, itemAt_nat, Hi. done.
  - destruct (emplaced m k defaultElement Hs Hf) as (Hout & Hroom & Hfull).
    assert (Map.elementOf fsp m k = None) as He by (by apply elementOf_None).
    destruct (Nat.lt_ge_cases (length m) N) as [Hlt|Hge].
    + destruct (Hroom Hlt) as (p & _ & _ & -> & Hs' & Hat & Hlen).
      cbn [fst snd].
      split; [done|]. split; [|split; [|split; [|split]]].
      * intros k' Hne. apply elementOf_ext; [done|done|]. intros e'.
        rewrite elem_inserted. split; [|auto]. intros [[=]|?]; done.
      * intros Hin. done.
      * intros _ _. by rewrite itemAt_nat.
      * intros _ Hfull'. lia.
      * intros _. rewrite He, itemAt_nat, Hat. split; [done|].
        apply elementOf_Some; [done|].
        by apply (list_elem_of_lookup_2 _ p).
    + rewrite (Hfull Hge). cbn [fst snd].
      split; [done|]. split; [done|]. split; [intros Hin; done|].
      split; [intros _ Hlt; lia|]. split.
      * intros _ _. by rewrite itemAt_end.
      * intros [Hin|Hlt]; [done|lia].
Qed.

(** X19: [erase(k)] takes the item of [k] out and nothing else: the keys stay
    strictly increasing, [k] is stored with nothing afterwards, every other
    key with what it was stored with before; a stored key makes the map one
    item shorter, a key that is not stored leaves it as it is. *)
Theorem erase_removes_one_key (m : list (Map.MapItem K E)) (k : K) :
  Sorted.sortedUnique Map.getKey m ->
  let m' := Map.erase fsp m k in
  Sorted.sortedUnique Map.getKey m' /\
  Map.elementOf fsp m' k = None /\
  (forall k', k' <> k -> Map.elementOf fsp m' k' = Map.elementOf fsp m k') /\
  (k ∈ Map.keys m -> S (length m') = length m) /\
  (k ∉ Map.keys m -> m' = m).
Proof using Laws same search.
  intros Hs. cbv zeta. unfold Map.erase.
  destruct (fsp m k).2 eqn:Hf.
  - destruct (matched m k Hs Hf) as (i & item & Hp & Hi & Hkey).
    unfold Sorted.erase. rewrite Hp.
    assert ((0 <=? Z.of_nat i) = true) as -> by (apply Z.leb_le; lia).
    rewrite Nat2Z.id. cbn [fst].
    pose proof (sorted_erased m i Hs) as Hs'.
    pose proof (sorted_keys_NoDup m Hs) as Hnd.
    split; [done|]. split; [|split; [|split]].
    + apply elementOf_None; [done|]. intros Hin.
      unfold Map.keys, Sorted.keys in Hin.
      apply list_elem_of_fmap in Hin as (x & Hx & Hin).
      apply (elem_erased m i item x Hnd Hi) in Hin as [_ Hne]. congruence.
    + intros k' Hne. apply elementOf_ext; [done|done|]. intros e'.
      rewrite (elem_erased m i item _ Hnd Hi). simpl.
      split; [tauto|]. intros Hin. split; [done|]. congruence.
    + intros _. rewrite length_delete by eauto.
      apply lookup_lt_Some in Hi. lia.
    + intros Hout. apply flag_stored in Hf; done.
  - split; [done|].
    destruct (unmatched m k Hs Hf) as (_ & _ & _ & _ & Hout).
    split; [by apply elementOf_None|]. done.
Qed.

(** X20: Erasing a key right after it was inserted gives the map back as it
    was, item by item, whichever of [insertOrAssign], [emplace] and
    [getItem] inserted it, and also when the allocator had no node for
    it. *)
Theorem erase_undoes_the_insertion (defaultElement : E)
    (m : list (Map.MapItem K E)) (k : K) (e : E) :
  Sorted.sortedUnique Map.getKey m ->
  k ∉ Map.keys m ->
  Map.erase fsp (Map.insertOrAssign fsp N m k e).1 k = m /\
  Map.erase fsp (Map.emplace fsp N m k e).1 k = m /\
  Map.erase fsp (Map.getItem fsp N defaultElement m k).1 k = m.
Proof using Laws same search.
  intros Hs Hout.
  assert ((fsp m k).2 = false) as Hf.
  { destruct (fsp m k).2 eqn:Hf; [|done]. apply flag_stored in Hf; done. }
  assert (Map.erase fsp m k = m) as Hnone
    by (unfold Map.erase; by rewrite Hf).
  assert (forall e', Map.erase fsp (Map.emplaceTo N m (fsp m k).1
                                      (Map.Item k e')).1 k = m) as Hback.
  { intros e'. destruct (emplaced m k e' Hs Hf) as (_ & Hroom & Hfull).
    destruct (Nat.lt_ge_cases (length m) N) as [Hlt|Hge];
      [|by rewrite (Hfull Hge)].
    destruct (Hroom Hlt) as (p & Hlen & _ & -> & Hs' & Hat & _).
    cbn [fst]. set (m1 := take p m ++ Map.Item k e' :: drop p m) in *.
    assert ((fsp m1 k).2 = true) as Hf1.
    { apply flag_stored; [done|]. by apply (key_elem m1 (Map.Item k e')),
        (list_elem_of_lookup_2 m1 p). }
    destruct (matched m1 k Hs' Hf1) as (i & item & Hi & Hitem & Hkey).
    assert (i = p) as ->.
    { apply (NoDup_lookup (Map.keys m1) i p k).
      - by apply sorted_keys_NoDup.
      - unfold Map.keys. by rewrite SortedFacts.keys_lookup, Hitem, <- Hkey.
      - unfold Map.keys. by rewrite SortedFacts.keys_lookup, Hat. }
    unfold Map.erase, Sorted.erase. rewrite Hf1, Hi.
    assert ((0 <=? Z.of_nat p) = true) as -> by (apply Z.leb_le; lia).
    rewrite Nat2Z.id. cbn [fst]. unfold m1.
    rewrite delete_take_drop.
    rewrite take_app_le, take_take by (rewrite length_take; lia).
    rewrite Nat.min_id.
    rewrite drop_app_ge by (rewrite length_take; lia).
    rewrite length_take_le by lia.
    replace (S p - p)%nat with 1%nat by lia. simpl.
    rewrite drop_0. apply take_drop. }
  unfold Map.insertOrAssign, Map.emplace, Map.getItem. rewrite Hf.
  cbn [negb].
  split; [|split].
  - specialize (Hback e).
    by destruct (Map.emplaceTo N m (fsp m k).1 (Map.Item k e)).
  - specialize (Hback e).
    by destruct (Map.emplaceTo N m (fsp m k).1 (Map.Item k e)).
  - apply Hback.
Qed.

(** X21: [copyElementsFrom(other)] keeps the keys strictly increasing, also
    when the allocator runs out of nodes.  When the allocator has a node
    for every item of [other], every key is afterwards stored with the
    element of the last item of [other] that has the key, and a key [other]
    does not have keeps what it was stored with. *)
Theorem copyElementsFrom_takes_the_last_element {EqK : EqDecision K}
    (m other : list (Map.MapItem K E)) (k : K) :
  Sorted.sortedUnique Map.getKey m ->
  let r := Map.copyElementsFrom fsp N m other in
  Sorted.sortedUnique Map.getKey r /\
  ((length m + length other <= N)%nat ->
     Map.elementOf fsp r k
     = match last (filter (fun item => Map.getKey item = k) other) with
       | Some item => Some (Map.getElement item)
       | None => Map.elementOf fsp m k
       end).
Proof using Laws same search.
  intros Hs. cbv zeta. unfold Map.copyElementsFrom.
  assert (Sorted.sortedUnique Map.getKey
            (foldl (fun m item =>
                      (Map.insertOrAssign fsp N m (Map.getKey item)
                         (Map.getElement item)).1) m other) /\
          (length (foldl (fun m item =>
                      (Map.insertOrAssign fsp N m (Map.getKey item)
                         (Map.getElement item)).1) m other)
           <= length m + length other)%nat) as [Hsorted _].
  { induction other as [|x xs IH] using rev_ind; [split; [done|simpl; lia]|].
    rewrite foldl_snoc, length_app. destruct IH as [Hs0 Hlen0].
    destruct (insertOrAssign_elements _ (Map.getKey x) (Map.getElement x) Hs0)
      as (Hs1 & _ & _ & Hlen1).
    split; [done|]. simpl. lia. }
  split; [done|]. clear Hsorted.
  induction other as [|x xs IH] using rev_ind; [done|].
  rewrite length_app. simpl. intros Hroom.
  rewrite foldl_snoc.
  assert (Sorted.sortedUnique Map.getKey
            (foldl (fun m item =>
                      (Map.insertOrAssign fsp N m (Map.getKey item)
                         (Map.getElement item)).1) m xs) /\
          (length (foldl (fun m item =>
                      (Map.insertOrAssign fsp N m (Map.getKey item)
                         (Map.getElement item)).1) m xs)
           <= length m + length xs)%nat) as [Hs0 Hlen0].
  { clear IH Hroom. induction xs as [|y ys IH] using rev_ind;
      [split; [done|simpl; lia]|].
    rewrite foldl_snoc, length_app. destruct IH as [Hs0 Hlen0].
    destruct (insertOrAssign_elements _ (Map.getKey y) (Map.getElement y) Hs0)
      as (Hs1 & _ & _ & Hlen1).
    split; [done|]. simpl. lia. }
  specialize (IH ltac:(lia)).
  set (r0 := foldl _ m xs) in *.
  destruct (insertOrAssign_elements r0 (Map.getKey x) (Map.getElement x) Hs0)
    as (Hs1 & Hframe & Hk & _).
  rewrite filter_app.
  destruct (decide (Map.getKey x = k)) as [<-|Hne].
  - rewrite filter_cons_True, filter_nil by done.
    rewrite last_snoc. apply Hk. right. lia.
  - rewrite filter_cons_False, filter_nil, app_nil_r by done.
    rewrite Hframe by done. exact IH.
Qed.

(** Copying a map with strictly increasing keys item by item into what is
    there so far puts every item at the end, as long as the allocator has
    nodes. *)
Lemma copy_appends (pre items : list (Map.MapItem K E)) :
  Sorted.sortedUnique Map.getKey (pre ++ items) ->
  Map.copyElementsFrom fsp N pre items
  = pre ++ take (N - length pre) items.
Proof using Laws same search.
  unfold Map.copyElementsFrom.
  revert pre. induction items as [|x xs IH]; intros pre Hs.
  - by rewrite take_nil, app_nil_r.
  - cbn [foldl].
    assert (Sorted.sortedUnique Map.getKey pre /\
            Forall (fun kp => less kp (Map.getKey x) = true)
              (Sorted.keys Map.getKey pre)) as [Hpre Hless].
    { unfold Sorted.sortedUnique, Sorted.keys in *.
      rewrite fmap_app, fmap_cons in Hs.
      apply StronglySorted_app in Hs as (Hcross & Hpre & _).
      split; [done|]. apply Forall_forall. intros kp Hkp.
      apply Hcross; [done|]. apply elem_of_cons. by left. }
    assert ((fsp pre (Map.getKey x)).2 = false) as Hf.
    { destruct (fsp pre (Map.getKey x)).2 eqn:Hf; [|done].
      apply flag_stored in Hf; [|done].
      rewrite Forall_forall in Hless. specialize (Hless _ Hf).
      by rewrite less_irreflexive in Hless. }
    destruct (emplaced pre (Map.getKey x) (Map.getElement x) Hpre Hf)
      as (_ & Hroom & Hfull).
    unfold Map.insertOrAssign. rewrite Hf. cbn [negb].
    destruct (Nat.lt_ge_cases (length pre) N) as [Hlt|Hge].
    + destruct (Hroom Hlt) as (p & Hlen & Hlb & -> & _).
      assert (p = length pre) as ->.
      { destruct Hlb as (_ & _ & Hafter).
        destruct (decide (p = length pre)) as [|Hne]; [done|]. exfalso.
        destruct (Sorted.keys Map.getKey pre !! p) as [kp|] eqn:Hkp.
        - rewrite Forall_forall in Hless.
          pose proof (Hless kp (list_elem_of_lookup_2 _ _ _ Hkp)) as H1.
          rewrite Forall_lookup in Hafter. specialize (Hafter 0%nat kp).
          rewrite lookup_drop, Nat.add_0_r in Hafter.
          specialize (Hafter Hkp). congruence.
        - apply lookup_ge_None in Hkp.
          rewrite SortedFacts.keys_length in Hkp. lia. }
      cbn [fst]. rewrite firstn_all, drop_all, item_eta.
      rewrite IH by (by rewrite <- app_assoc).
      rewrite <- app_assoc, length_app. simpl.
      replace (N - length pre)%nat with (S (N - (length pre + 1)))%nat by lia.
      done.
    + rewrite (Hfull Hge). cbn [fst].
      rewrite IH.
      * by replace (N - length pre)%nat with 0%nat by lia.
      * rewrite <- (delete_middle pre xs x). by apply sorted_erased.
Qed.

(** X22: The copy constructor hands back the first [N] items of the map it
    copies, [N] being the nodes the allocator has, when that map has
    strictly increasing keys: the map itself, item by item, when the
    allocator has a node for every item, and a map that silently lacks the
    items with the largest keys otherwise. *)
Theorem copy_of_a_map_is_the_map (other : list (Map.MapItem K E)) :
  Sorted.sortedUnique Map.getKey other ->
  Map.copyOf fsp N other = take N other /\
  ((length other <= N)%nat -> Map.copyOf fsp N other = other).
Proof using Laws same search.
  intros Hs. unfold Map.copyOf.
  assert (Map.copyElementsFrom fsp N [] other = take N other) as Hcopy.
  { rewrite copy_appends by done. simpl. by rewrite Nat.sub_0_r. }
  split; [done|]. intros Hlen. rewrite Hcopy. by apply take_ge.
Qed.

End Laws.

(** The search of the sorted engine, moved past a match, is one the
    functions of [Map.h] can rely on. *)
Lemma findSortedPositionAfter_searches {K E : Type} {Cmp : Comparator K}
    {Laws : StrictWeak K} :
  (forall a b : K, keyEqual a b = true -> a = b) ->
  Map.searches (K := K) (E := E)
    (Sorted.findSortedPositionAfter Map.getKey).
Proof.
  intros Hsame m k Hs.
  split; [by apply MapFacts.findSortedPositionAfter_stepsBack|].
  pose proof (SortedFacts.findSortedPositionAfter_spec Map.getKey m k
                Hsame Hs) as (Hrange & _ & _ & Hlb).
  intros Hf. split; [lia|by apply Hlb].
Qed.

(** The sample search, on integer keys, is one the functions can rely
    on, and the sample map has strictly increasing keys. *)
Lemma searchAfter_searches : Map.searches Samples.searchAfter.
Proof. apply findSortedPositionAfter_searches, SortedFacts.int_keyEqual. Qed.

Lemma map135_sorted : Sorted.sortedUnique Map.getKey Samples.map135.
Proof. unfold Sorted.sortedUnique. vm_compute. repeat constructor. Qed.

(** Looking up the stored key 3 and the key 4, which is not stored. *)
Lemma find_reads_the_stored_element_witness :
  Map.elementOf Samples.searchAfter Samples.map135 3 = Some 30%nat /\
  Map.find Samples.searchAfter Samples.map135 4 = Map.cend Samples.map135.
Proof.
  pose proof (find_reads_the_stored_element Samples.searchAfter
                searchAfter_searches Samples.map135 3 map135_sorted)
    as (H3 & _).
  pose proof (find_reads_the_stored_element Samples.searchAfter
                searchAfter_searches Samples.map135 4 map135_sorted)
    as (_ & H4 & _).
  split.
  - apply H3. apply list_elem_of_lookup. by exists 1%nat.
  - apply H4. intros Hin. apply list_elem_of_lookup in Hin as [i Hi].
    destruct i as [|[|[|i]]]; discriminate.
Defined.

(** Assigning to the stored key 3 and to the new key 4 with nodes left,
    and to the new key 4 with all three nodes taken. *)
Lemma insertOrAssign_stores_the_element_witness :
  Map.elementOf Samples.searchAfter
    (Map.insertOrAssign Samples.searchAfter 16 Samples.map135 3 33%nat).1 3
    = Some 33%nat /\
  Map.elementOf Samples.searchAfter
    (Map.insertOrAssign Samples.searchAfter 16 Samples.map135 4 44%nat).1 4
    = Some 44%nat /\
  Map.insertOrAssign Samples.searchAfter 3 Samples.map135 4 44%nat
    = (Samples.map135, (3, true)).
Proof.
  assert (4 ∉ Map.keys Samples.map135) as Hout.
  { intros Hin. apply list_elem_of_lookup in Hin as [i Hi].
    destruct i as [|[|[|i]]]; discriminate. }
  pose proof (insertOrAssign_stores_the_element Samples.searchAfter
                SortedFacts.int_keyEqual searchAfter_searches 16
                Samples.map135 3 33%nat map135_sorted)
    as (_ & _ & H3 & _).
  pose proof (insertOrAssign_stores_the_element Samples.searchAfter
                SortedFacts.int_keyEqual searchAfter_searches 16
                Samples.map135 4 44%nat map135_sorted)
    as (_ & _ & _ & H4 & _).
  pose proof (insertOrAssign_stores_the_element Samples.searchAfter
                SortedFacts.int_keyEqual searchAfter_searches 3
                Samples.map135 4 44%nat map135_sorted)
    as (_ & _ & _ & _ & Hfull).
  split; [|split].
  - apply H3. apply list_elem_of_lookup. by exists 1%nat.
  - apply H4; [done|]. simpl. lia.
  - apply Hfull; [done|]. simpl. lia.
Defined.

(** [emplace] with the stored key 3 changes nothing and hands back the
    iterator of the item after it, the one with key 5. *)
Lemma emplace_keeps_the_stored_element_witness :
  (Map.emplace Samples.searchAfter 16 Samples.map135 3 33%nat).1
    = Samples.map135 /\
  Map.keyAt Samples.map135
    (Map.emplace Samples.searchAfter 16 Samples.map135 3 33%nat).2.1 = Some 5.
Proof.
  pose proof (emplace_keeps_the_stored_element Samples.searchAfter
                SortedFacts.int_keyEqual searchAfter_searches 16
                Samples.map135 3 33%nat map135_sorted) as (_ & _ & _ & _ & H).
  destruct H as (Hsame & _).
  - apply list_elem_of_lookup. by exists 1%nat.
  - split; [exact Hsame|reflexivity].
Defined.

(** [operator[]] on the stored key 3 and on the new key 4, with the default
    element 0 and nodes left. *)
Lemma getItem_inserts_the_missing_key_witness :
  (Map.getElementOf Samples.searchAfter 16 0%nat Samples.map135 3).2
    = Some 30%nat /\
  (Map.getElementOf Samples.searchAfter 16 0%nat Samples.map135 4).2
    = Some 0%nat.
Proof.
  pose proof (getItem_inserts_the_missing_key Samples.searchAfter
                SortedFacts.int_keyEqual searchAfter_searches 16 0%nat
                Samples.map135 3 map135_sorted)
    as (_ & _ & _ & _ & _ & H3).
  pose proof (getItem_inserts_the_missing_key Samples.searchAfter
                SortedFacts.int_keyEqual searchAfter_searches 16 0%nat
                Samples.map135 4 map135_sorted)
    as (_ & _ & _ & _ & _ & H4).
  destruct H3 as [H3 _].
  { left. apply list_elem_of_lookup. by exists 1%nat. }
  destruct H4 as [H4 _].
  { right. simpl. lia. }
  rewrite H3, H4. split; reflexivity.
Defined.

(** Erasing the key 3 leaves the keys 1 and 5 with their elements. *)
Lemma erase_removes_one_key_witness :
  Map.elementOf Samples.searchAfter
    (Map.erase Samples.searchAfter Samples.map135 3) 3 = None /\
  Map.elementOf Samples.searchAfter
    (Map.erase Samples.searchAfter Samples.map135 3) 5 = Some 50%nat.
Proof.
  pose proof (erase_removes_one_key Samples.searchAfter
                SortedFacts.int_keyEqual searchAfter_searches
                Samples.map135 3 map135_sorted) as (_ & Hgone & Hframe & _).
  split; [exact Hgone|].
  rewrite Hframe by discriminate. reflexivity.
Defined.

(** Inserting the key 4 and erasing it again. *)
Lemma erase_undoes_the_insertion_witness :
  Map.erase Samples.searchAfter
    (Map.insertOrAssign Samples.searchAfter 16 Samples.map135 4 44%nat).1 4
    = Samples.map135.
Proof.
  apply (erase_undoes_the_insertion Samples.searchAfter
           SortedFacts.int_keyEqual searchAfter_searches 16 0%nat
           Samples.map135 4 44%nat map135_sorted).
  intros Hin. apply list_elem_of_lookup in Hin as [i Hi].
  destruct i as [|[|[|i]]]; discriminate.
Defined.

(** Copying two items with the key 3 and one with the key 7 into the
    sample map: the second element given for 3 is the one stored. *)
Lemma copyElementsFrom_takes_the_last_element_witness :
  Map.elementOf Samples.searchAfter
    (Map.copyElementsFrom Samples.searchAfter 16 Samples.map135
       [Map.Item 3 31%nat; Map.Item 7 70%nat; Map.Item 3 32%nat]) 3
    = Some 32%nat.
Proof.
  pose proof (copyElementsFrom_takes_the_last_element Samples.searchAfter
                SortedFacts.int_keyEqual searchAfter_searches 16
                Samples.map135
                [Map.Item 3 31%nat; Map.Item 7 70%nat; Map.Item 3 32%nat]
                3 map135_sorted) as [_ H].
  rewrite H; [reflexivity|]. simpl. lia.
Defined.

(** A copy with nodes for all three items, and one with nodes for two. *)
Lemma copy_of_a_map_is_the_map_witness :
  Map.copyOf Samples.searchAfter 16 Samples.map135 = Samples.map135 /\
  Map.copyOf Samples.searchAfter 2 Samples.map135
    = [Map.Item 1 10%nat; Map.Item 3 30%nat].
Proof.
  split.
  - apply (copy_of_a_map_is_the_map Samples.searchAfter
             SortedFacts.int_keyEqual searchAfter_searches 16
             Samples.map135 map135_sorted).
    simpl. lia.
  - apply (copy_of_a_map_is_the_map Samples.searchAfter
             SortedFacts.int_keyEqual searchAfter_searches 2
             Samples.map135 map135_sorted).
Defined.

End MapProperties.
